(** * rename_frames.py: filename parser and collision-safe rename planner

    A shallow embedding of [src/rename_frames.py] and the properties its
    specification states about it.

    Strings.  A Python [str] is a sequence of Unicode code points.  The
    embedding works over the code points U+0000..U+00FF together with the
    five code points outside that range that the program's case-insensitive
    patterns and [str.lower] treat specially: [re.IGNORECASE] lets U+0130
    and U+0131 match [i], U+017F match [s] and U+212A match [k], and
    [str.lower] turns U+0130 into [i] followed by U+0307.  On this alphabet
    the classes [\s], [\d] and [\w], the case folding of [re], [str.lower]
    and [str.strip] are those of CPython 3.

    Patterns.  The patterns of the program are values of a small pattern
    type, run by a backtracking matcher that tries alternatives and
    repetition lengths in the order [re] does.

    File system.  [main] is a function of the flags and of a world, of which
    it sees the listing of the working directory and which it changes only
    through the move primitive.  An entry of the listing has a name and
    leads, when symbolic links are followed, to a regular file, to something
    else, or nowhere; [is_file()] and [exists()] are read off that.  An
    exception of the move primitive leaves [main] as it was raised. *)

From Stdlib Require Import Bool Arith Lia NArith Ascii String List Permutation Sorted.
Import ListNotations.

Set Implicit Arguments.

(** ** Characters and strings *)

Module Char.

Inductive char : Type :=
| L1 (a : ascii)   (* U+0000 .. U+00FF *)
| U0130            (* LATIN CAPITAL LETTER I WITH DOT ABOVE *)
| U0131            (* LATIN SMALL LETTER DOTLESS I *)
| U017F            (* LATIN SMALL LETTER LONG S *)
| U0307            (* COMBINING DOT ABOVE *)
| U212A.           (* KELVIN SIGN *)

(** [ord(c)] *)
Definition code (c : char) : N :=
  match c with
  | L1 a => N_of_ascii a
  | U0130 => 304
  | U0131 => 305
  | U017F => 383
  | U0307 => 775
  | U212A => 8490
  end%N.

Definition eqb (c d : char) : bool := N.eqb (code c) (code d).

Definition between (lo hi n : N) : bool := (N.leb lo n && N.leb n hi)%bool.

(** [str.isspace] on one character; also the class [\s] of [re]. *)
Definition is_space (c : char) : bool :=
  match c with
  | L1 a =>
      let n := N_of_ascii a in
      between 9 13 n || between 28 32 n || N.eqb n 133 || N.eqb n 160
  | _ => false
  end%N.

(** The class [\d] of [re]: Unicode decimal digits. *)
Definition is_digit (c : char) : bool :=
  match c with
  | L1 a => between 48 57 (N_of_ascii a)
  | _ => false
  end%N.

(** The class [\w] of [re]: alphanumerics and the underscore. *)
Definition is_word (c : char) : bool :=
  match c with
  | L1 a =>
      let n := N_of_ascii a in
      between 48 57 n || between 65 90 n || N.eqb n 95 || between 97 122 n
      || N.eqb n 170 || between 178 179 n || N.eqb n 181
      || between 185 186 n || between 188 190 n
      || between 192 214 n || between 216 246 n || between 248 255 n
  | U0307 => false
  | _ => true
  end%N.

(** Upper-case letters of U+0000..U+00FF: their lower-case partner is 32
    code points higher. *)
Definition is_upper_l1 (n : N) : bool :=
  (between 65 90 n || between 192 214 n || between 216 222 n)%N.

(** The one-character lower-casing [re] uses under [IGNORECASE]. *)
Definition tolower (c : char) : char :=
  match c with
  | L1 a =>
      let n := N_of_ascii a in
      if is_upper_l1 n then L1 (ascii_of_N (n + 32)) else c
  | U0130 => L1 "i"
  | U212A => L1 "k"
  | _ => c
  end.

(** [str.lower] on one character: U+0130 becomes two code points. *)
Definition lower (c : char) : list char :=
  match c with
  | U0130 => [L1 "i"; U0307]
  | _ => [tolower c]
  end.

(** The extra characters [re] equates with a lower-case letter under
    [IGNORECASE] although they are not its upper case. *)
Definition fixes (lo : char) : list char :=
  match lo with
  | L1 "i" => [U0131]
  | L1 "s" => [U017F]
  | U0131 => [L1 "i"]
  | U017F => [L1 "s"]
  | _ => []
  end.

(** A pattern literal [p] against a subject character [c]. *)
Definition lit_match (ignorecase : bool) (p c : char) : bool :=
  if ignorecase
  then let lo := tolower p in existsb (eqb (tolower c)) (lo :: fixes lo)
  else eqb p c.

End Char.

Import Char.

Definition pystr := list char.

(** A Rocq string literal read as a Python [str]. *)
Definition str (s : string) : pystr := map L1 (list_ascii_of_string s).

(** [a == b] *)
Fixpoint str_eqb (a b : pystr) : bool :=
match a, b with
| [], [] => true
| c :: a', d :: b' => eqb c d && str_eqb a' b'
| _, _ => false
end.

(** [s.lower()] *)
Definition lower_str (s : pystr) : pystr := flat_map lower s.

Fixpoint dropwhile (p : char -> bool) (s : pystr) : pystr :=
match s with
| [] => []
| c :: t => if p c then dropwhile p t else s
end.

(** [s.strip()] *)
Definition strip (s : pystr) : pystr :=
rev (dropwhile is_space (rev (dropwhile is_space s))).

(** [s[a:b]] for [0 <= a], [0 <= b] *)
Definition slice (s : pystr) (a b : nat) : pystr := firstn (b - a) (skipn a s).

(** ** The fragment of [re] the program uses *)

Module Re.

(** One-character patterns. *)
Inductive atom : Type :=
| Lit (c : char)   (* a literal, folded under IGNORECASE *)
| Space            (* \s *)
| Digit.           (* \d *)

Inductive regex : Type :=
| Eps
| Atm (a : atom)
| Rep (a : atom) (lo : nat) (hi : option nat)   (* greedy a{lo,hi}; a+ is a{1,} *)
| Cat (r1 r2 : regex)
| Alt (r1 r2 : regex)
| Grp (n : nat) (r : regex)                     (* capturing group number n *)
| Bol                                           (* ^ *)
| Eol                                           (* $ *)
| Wordb.                                        (* \b *)

(** The literal text [t] as a pattern. *)
Fixpoint lits (t : list ascii) : regex :=
  match t with
  | [] => Eps
  | [a] => Atm (Lit (L1 a))
  | a :: t' => Cat (Atm (Lit (L1 a))) (lits t')
  end.

Definition text (t : string) : regex := lits (list_ascii_of_string t).

Definition spans := list (nat * (nat * nat)).

Fixpoint span_of (n : nat) (g : spans) : option (nat * nat) :=
  match g with
  | [] => None
  | (n', ab) :: g' => if Nat.eqb n n' then Some ab else span_of n g'
  end.

(** A match object: [m.start()], [m.end()] and the spans of its groups. *)
Record mobj : Type := Mobj { m_start : nat; m_end : nat; m_groups : spans }.

Definition atom_ok (ignorecase : bool) (a : atom) (c : char) : bool :=
  match a with
  | Lit p => lit_match ignorecase p c
  | Space => is_space c
  | Digit => is_digit c
  end.

Section Engine.

Variable ignorecase : bool.
Variable s : pystr.

Definition at_ok (a : atom) (i : nat) : bool :=
  match nth_error s i with
  | Some c => atom_ok ignorecase a c
  | None => false
  end.

Definition word_at (i : nat) : bool :=
  match nth_error s i with
  | Some c => is_word c
  | None => false
  end.

(** [\b]: exactly one of the characters before and after position [i]
    is a word character. *)
Definition boundary (i : nat) : bool :=
  xorb (match i with 0 => false | S j => word_at j end) (word_at i).

(** [$] without MULTILINE: the end of the string, or just before a
    newline that is its last character. *)
Definition at_end (i : nat) : bool :=
  Nat.eqb i (length s)
  || (Nat.eqb (S i) (length s)
      && match nth_error s i with Some c => eqb c (L1 "010") | None => false end).

(** How many characters from position [i] on match [a], at most [fuel]. *)
Fixpoint run (a : atom) (i fuel : nat) : nat :=
  match fuel with
  | 0 => 0
  | S f => if at_ok a i then S (run a (S i) f) else 0
  end.

Definition result := option (nat * spans).

(** Greedy repetition: the longest run first, then one character less
    at a time, down to [lo]. *)
Fixpoint back (k : nat -> result) (i lo n : nat) : result :=
  if Nat.ltb n lo then None
  else match k (i + n) with
       | Some x => Some x
       | None => match n with
                 | 0 => None
                 | S n' => back k i lo n'
                 end
       end.

(** The backtracking matcher: [m r i g k] matches [r] at position [i]
    with the groups [g] set so far, and hands the end position and the
    groups to the rest of the pattern [k]. *)
Fixpoint m (r : regex) (i : nat) (g : spans) (k : nat -> spans -> result) : result :=
  match r with
  | Eps => k i g
  | Atm a => if at_ok a i then k (S i) g else None
  | Rep a lo hi =>
      back (fun j => k j g) i lo
           (run a i (match hi with Some h => h | None => length s end))
  | Cat r1 r2 => m r1 i g (fun j g' => m r2 j g' k)
  | Alt r1 r2 =>
      match m r1 i g k with
      | Some x => Some x
      | None => m r2 i g k
      end
  | Grp n r' => m r' i g (fun j g' => k j ((n, (i, j)) :: g'))
  | Bol => if Nat.eqb i 0 then k i g else None
  | Eol => if at_end i then k i g else None
  | Wordb => if boundary i then k i g else None
  end.

Definition accept (j : nat) (g : spans) : result := Some (j, g).

(** [re.match]: a match that starts at position 0. *)
Definition re_match (r : regex) : option mobj :=
  match m r 0 [] accept with
  | Some (j, g) => Some (Mobj 0 j g)
  | None => None
  end.

Fixpoint search_from (r : regex) (i fuel : nat) : option mobj :=
  match m r i [] accept with
  | Some (j, g) => Some (Mobj i j g)
  | None => match fuel with
            | 0 => None
            | S f => search_from r (S i) f
            end
  end.

(** [re.search]: the match at the leftmost position that has one. *)
Definition re_search (r : regex) : option mobj :=
  search_from r 0 (length s).

(** [mo.group(n)] of a group that took part in the match. *)
Definition group (mo : mobj) (n : nat) : pystr :=
  match span_of n (m_groups mo) with
  | Some (a, b) => slice s a b
  | None => []
  end.

(** What it means for [r] to match from position [i] to position [j],
    taking the groups from [g] to [g']: the matches the engine chooses
    among. *)
Inductive matches : regex -> nat -> spans -> nat -> spans -> Prop :=
| M_eps i g : matches Eps i g i g
| M_atm a i g : at_ok a i = true -> matches (Atm a) i g (S i) g
| M_rep a lo hi n i g :
    lo <= n -> (forall h, hi = Some h -> n <= h) ->
    (forall t, t < n -> at_ok a (i + t) = true) ->
    matches (Rep a lo hi) i g (i + n) g
| M_cat r1 r2 i g j g1 l g2 :
    matches r1 i g j g1 -> matches r2 j g1 l g2 ->
    matches (Cat r1 r2) i g l g2
| M_alt_l r1 r2 i g j g' : matches r1 i g j g' -> matches (Alt r1 r2) i g j g'
| M_alt_r r1 r2 i g j g' : matches r2 i g j g' -> matches (Alt r1 r2) i g j g'
| M_grp n r i g j g' :
    matches r i g j g' -> matches (Grp n r) i g j ((n, (i, j)) :: g')
| M_bol g : matches Bol 0 g 0 g
| M_eol i g : at_end i = true -> matches Eol i g i g
| M_wordb i g : boundary i = true -> matches Wordb i g i g.

End Engine.

End Re.

Import Re.

(** ** The filename parser *)

(** [re.sub(r"\s+", " ", s)]: every maximal run of whitespace becomes one
    space; [in_run] tells that the previous character was whitespace. *)
Fixpoint sub_spaces (in_run : bool) (s : pystr) : pystr :=
  match s with
  | [] => []
  | c :: t =>
      if is_space c
      then if in_run then sub_spaces true t else L1 " " :: sub_spaces true t
      else c :: sub_spaces false t
  end.

Definition norm_spaces (s : pystr) : pystr := strip (sub_spaces false s).

(** The patterns of the program; all of them are used with IGNORECASE. *)
Definition PNG_RE : regex := Cat (text ".png") Eol.
Definition TONE_RE : regex :=
  Cat (Rep Space 1 None) (Cat (Grp 1 (Alt (text "light") (text "dark"))) Eol).
Definition SIZE_RE : regex :=
  Grp 1 (Cat (Rep Digit 2 (Some 4)) (Cat (text "x") (Rep Digit 2 (Some 4)))).
Definition whole (t : string) : regex := Cat Wordb (Cat (text t) Wordb).
Definition TEMPLATE_RE : regex := whole "template".
Definition AQUARELL_RE : regex := whole "aquarell".
Definition CKT_RE : regex := Cat Bol (Cat (text "ckt") Wordb).
Definition CROPPED_RE : regex := whole "cropped".
Definition SMALL_CLOSE_RE : regex := whole "small close".
Definition SMALL_FAR_RE : regex := whole "small far".

Definition found (o : option mobj) : bool :=
  match o with Some _ => true | None => false end.

(** The dict [parse_filename] returns. *)
Record descriptor : Type := Descriptor {
  original : pystr;
  family : pystr;
  size : pystr;
  variant : pystr;
  tone : pystr
}.

(** [base], the name without its last four characters, normalised. *)
Definition base_of (name : pystr) : pystr :=
  norm_spaces (firstn (length name - 4) name).

(** [base_wo_tone] for the tone match [m_tone] in [base]. *)
Definition wo_tone (base : pystr) (m_tone : mobj) : pystr :=
  strip (firstn (m_start m_tone) base).

Definition family_of (base_wo_tone : pystr) : option pystr :=
  if found (re_search true base_wo_tone TEMPLATE_RE) then Some (str "template")
  else if found (re_search true base_wo_tone AQUARELL_RE) then Some (str "aquarell")
  else if found (re_match true base_wo_tone CKT_RE) then Some (str "template")
  else None.

Definition variant_of (base_wo_tone : pystr) : pystr :=
  if found (re_search true base_wo_tone CROPPED_RE) then str "crop"
  else if found (re_search true base_wo_tone SMALL_CLOSE_RE) then str "close"
  else if found (re_search true base_wo_tone SMALL_FAR_RE) then str "full"
  else str "full".

Definition parse_filename (name : pystr) : option descriptor :=
  if negb (found (re_search true name PNG_RE)) then None
  else
    let base := base_of name in
    match re_search true base TONE_RE with
    | None => None
    | Some m_tone =>
        let tone := lower_str (group base m_tone 1) in
        let base_wo_tone := wo_tone base m_tone in
        match re_search true base_wo_tone SIZE_RE with
        | None => None
        | Some m_size =>
            let size := lower_str (group base_wo_tone m_size 1) in
            match family_of base_wo_tone with
            | None => None
            | Some family =>
                Some (Descriptor name family size (variant_of base_wo_tone) tone)
            end
        end
    end.

(** [f"ckt-{family}-{size}-{variant}-{tone}.png"] *)
Definition build_new_name (parsed : descriptor) : pystr :=
  str "ckt-" ++ family parsed ++ str "-" ++ size parsed ++ str "-"
  ++ variant parsed ++ str "-" ++ tone parsed ++ str ".png".

(** [base_wo_tone] of a name, when the name has a tone. *)
Definition base_wo_tone_of (name : pystr) : option pystr :=
  match re_search true (base_of name) TONE_RE with
  | Some m_tone => Some (wo_tone (base_of name) m_tone)
  | None => None
  end.

(** The text [t] stands in [s] at position [i] as a whole word, letter case
    ignored: what [\bt\b] looks for. *)
Definition whole_at (t s : pystr) (i : nat) : Prop :=
  boundary s i = true /\ boundary s (i + length t) = true /\
  forall k p, nth_error t k = Some p ->
    exists c, nth_error s (i + k) = Some c /\ lit_match true p c = true.

Definition contains_whole (t : string) (s : pystr) : Prop :=
  exists i, whole_at (str t) s i.

(** ** The planner *)

(** What an entry of the working directory is when symbolic links are
    followed, as [is_file()] and [exists()] follow them: a regular file,
    something else that is there (a directory, a FIFO, ...), or nothing, for
    a symbolic link whose target is missing. *)
Inductive kind : Type := Regular | Other | Broken.

(** An entry of the working directory: its name and what it leads to. *)
Record entry : Type := Entry { e_name : pystr; e_kind : kind }.

(** [p.is_file()] *)
Definition e_is_file (e : entry) : bool :=
  match e_kind e with Regular => true | _ => false end.

(** [p.exists()] *)
Definition e_exists (e : entry) : bool :=
  match e_kind e with Broken => false | _ => true end.

Definition directory := list entry.

(** [a <= b] on [str]: lexicographic on code points. *)
Fixpoint str_leb (a b : pystr) : bool :=
  match a, b with
  | [], _ => true
  | _ :: _, [] => false
  | c :: a', d :: b' =>
      if N.ltb (code c) (code d) then true
      else if N.ltb (code d) (code c) then false
      else str_leb a' b'
  end.

Section Sorted.

Variable A : Type.
Variable key : A -> pystr.

Fixpoint insert_sorted (x : A) (l : list A) : list A :=
  match l with
  | [] => [x]
  | y :: l' => if str_leb (key x) (key y) then x :: l else y :: insert_sorted x l'
  end.

(** [sorted(l)]: the stable sort by [key]. *)
Definition sorted (l : list A) : list A := fold_right insert_sorted [] l.

End Sorted.

Definition is_png (e : entry) : bool :=
  e_is_file e && found (re_search true (e_name e) PNG_RE).

Definition pngs (d : directory) : list entry := sorted e_name (filter is_png d).

(** A pair [(src.name, dst.name)] of [mappings]. *)
Definition rename : Type := (pystr * pystr)%type.

Fixpoint mappings_of (ps : list entry) : list rename :=
  match ps with
  | [] => []
  | p :: rest =>
      match parse_filename (e_name p) with
      | None => mappings_of rest
      | Some parsed =>
          let new_name := build_new_name parsed in
          if str_eqb new_name (e_name p) then mappings_of rest
          else (e_name p, new_name) :: mappings_of rest
      end
  end.

Definition sources (ms : list rename) : list pystr := map fst ms.
Definition targets (ms : list rename) : list pystr := map snd ms.

(** [l.count(t)] *)
Definition count (t : pystr) (l : list pystr) : nat :=
  length (filter (str_eqb t) l).

(** The elements of a [set] built from [l], each once. *)
Fixpoint dedup (l : list pystr) : list pystr :=
  match l with
  | [] => []
  | x :: l' => if existsb (str_eqb x) l' then dedup l' else x :: dedup l'
  end.

(** [sorted({t for t in targets if targets.count(t) > 1})] *)
Definition dupes_of (ts : list pystr) : list pystr :=
  sorted (fun t => t) (dedup (filter (fun t => Nat.ltb 1 (count t ts)) ts)).

(** The directory [d] has an entry of the name [t]. *)
Definition listed (d : directory) (t : pystr) : bool :=
  existsb (fun e => str_eqb (e_name e) t) d.

(** [dst.exists()] in a directory with the entries [d]: an entry has the
    name and leads somewhere.  A symbolic link whose target is missing is
    listed and does not exist. *)
Definition on_disk (d : directory) (t : pystr) : bool :=
  existsb (fun e => str_eqb (e_name e) t && e_exists e) d.

(** An exception of the move primitive, as far as it tells of files: its
    class and the names it carries, [filename] and [filename2] of an
    [OSError], the words of [cmd] of a [CalledProcessError]. *)
Record exn : Type := Exn { x_class : string; x_names : list pystr }.

(** What a run reports before it returns. *)
Inductive report : Type :=
| NothingToRename                                   (* "No matching PNGs found to rename." *)
| NameCollisions (dupes : list pystr)               (* "ERROR: Name collisions detected ..." *)
| TargetsExist (existing : list pystr)              (* "ERROR: Some target filenames already exist:" *)
| DryRun (proposed : list rename)                   (* "Dry-run only ..." *)
| Done (proposed : list rename)                     (* "Done." *)
| MoveRaised (proposed : list rename) (x : exn).      (* the proposal, then the exception of a move escapes *)

(** One call of the move primitive: it returns, or it raises [x]. *)
Inductive move_result (World : Type) : Type :=
| Moved (w : World)
| Raised (x : exn) (w : World).

(** The state of the working directory after the loop, the moves the loop
    called in order, and the move that raised with its exception, if one
    did. *)
Record executed (World : Type) : Type :=
  Executed { final : World; attempted : list rename; failed : option (rename * exn) }.

Section Planner.

(** The file system the run acts on: what [cwd.iterdir()] lists in it, and
    the move primitive, [git mv] when its first argument is [true] and
    [Path.rename] otherwise. *)
Variable World : Type.
Variable listing : World -> directory.
Variable mover : bool -> rename -> World -> move_result World.

(** The loop [for src, dst in mappings: ...] *)
Fixpoint execute (use_git : bool) (plan : list rename) (w : World) : executed World :=
  match plan with
  | [] => Executed w [] None
  | e :: rest =>
      match mover use_git e w with
      | Moved w' =>
          let r := execute use_git rest w' in
          Executed (final r) (e :: attempted r) (failed r)
      | Raised x w' => Executed w' [e] (Some (e, x))
      end
  end.

Definition plan_of (w : World) : list rename := mappings_of (pngs (listing w)).

Definition main (apply use_git : bool) (w : World) : report * executed World :=
  let mappings := plan_of w in
  let untouched := Executed w [] None in
  match mappings with
  | [] => (NothingToRename, untouched)
  | _ :: _ =>
      match dupes_of (targets mappings) with
      | (_ :: _) as dupes => (NameCollisions dupes, untouched)
      | [] =>
          match filter (on_disk (listing w)) (targets mappings) with
          | (_ :: _) as existing => (TargetsExist existing, untouched)
          | [] =>
              if negb apply then (DryRun mappings, untouched)
              else
                let r := execute use_git mappings w in
                match failed r with
                | None => (Done mappings, r)
                | Some (_, x) => (MoveRaised mappings x, r)
                end
          end
      end
  end.

End Planner.

(** A directory as the file system, for the moves of a run, whose sources
    are regular files and whose targets did not exist when the run began: a
    move gives the source entry the target's name, replacing an entry that
    has that name.  It raises when the source is missing, [Path.rename] a
    [FileNotFoundError] with the two paths and [subprocess.run] a
    [CalledProcessError] with the command; [git mv] also fails when the
    target is listed, were it a link to a missing file. *)
Definition rename_entry (r : rename) (d : directory) : directory :=
  map (fun e => if str_eqb (e_name e) (fst r) then Entry (snd r) (e_kind e) else e)
      (filter (fun e => negb (str_eqb (e_name e) (snd r))) d).

Definition dir_mover (use_git : bool) (r : rename) (d : directory) : move_result directory :=
  if use_git then
    if listed d (fst r) && negb (listed d (snd r)) then Moved (rename_entry r d)
    else Raised (Exn "CalledProcessError" [str "git"; str "mv"; fst r; snd r]) d
  else
    if listed d (fst r) then Moved (rename_entry r d)
    else Raised (Exn "FileNotFoundError" [fst r; snd r]) d.

(** The same on a machine without git: [subprocess.run] cannot start the
    program and raises a [FileNotFoundError] for it. *)
Definition no_git_mover (use_git : bool) (r : rename) (d : directory) : move_result directory :=
  if use_git then Raised (Exn "FileNotFoundError" [str "git"]) d
  else dir_mover use_git r d.

Definition dir_main (apply use_git : bool) (d : directory) : report * executed directory :=
  main (fun w => w) dir_mover apply use_git d.

(** ** Auxiliary definitions for the statements *)

(** Every character of the alphabet, to check a property of characters by
    evaluation. *)
Definition all_chars : list char :=
  map (fun n => L1 (ascii_of_nat n)) (seq 0 256) ++ [U0130; U0131; U017F; U0307; U212A].

Definition no_space (s : pystr) : Prop := Forall (fun c => is_space c = false) s.

(** Two to four decimal digits. *)
Definition digits (w : pystr) : Prop :=
  Forall (fun c => is_digit c = true) w /\ 2 <= length w <= 4.

(** [u] is the text [t] up to the letter case [re.IGNORECASE] ignores. *)
Definition like (t : string) (u : pystr) : Prop :=
  Forall2 (fun p c => lit_match true (L1 p) c = true) (list_ascii_of_string t) u.

(** The world after the moves of [plan] when each of them returns. *)
Fixpoint all_moved (World : Type) (mover : bool -> rename -> World -> move_result World)
    (use_git : bool) (plan : list rename) (w : World) : option World :=
  match plan with
  | [] => Some w
  | e :: rest =>
      match mover use_git e w with
      | Moved w' => all_moved mover use_git rest w'
      | Raised _ _ => None
      end
  end.

(** The report tells which entry's move failed: the exception that escapes
    carries the source or the target of [e]. *)
Definition names_entry (rep : report) (e : rename) : Prop :=
  match rep with
  | MoveRaised _ x => In (fst e) (x_names x) \/ In (snd e) (x_names x)
  | _ => False
  end.

(** An entry the loop over [pngs] turns into a mapping. *)
Definition selected (e : entry) : bool :=
  is_png e &&
  match parse_filename (e_name e) with
  | Some parsed => negb (str_eqb (build_new_name parsed) (e_name e))
  | None => false
  end.

(** The format of the names the tool writes:
    [ckt-<family>-<size>-<variant>-<tone>.png] with the family one of
    template and aquarell, the size two to four digits, [x], two to four
    digits, the variant one of full, crop and close, the tone light or
    dark. *)
Definition wire_format (t : pystr) : Prop :=
  exists fam w h var tn,
    t = str "ckt-" ++ fam ++ str "-" ++ (w ++ str "x" ++ h) ++ str "-"
        ++ var ++ str "-" ++ tn ++ str ".png" /\
    In fam [str "template"; str "aquarell"] /\
    digits w /\ digits h /\
    In var [str "full"; str "crop"; str "close"] /\
    In tn [str "light"; str "dark"].

(** A code point of U+0000..U+00FF. *)
Definition is_l1 (c : char) : bool :=
  match c with L1 _ => true | _ => false end.

(** [a <= b] and [a < b] on [str] as propositions. *)
Definition str_le (a b : pystr) : Prop := str_leb a b = true.
Definition str_lt (a b : pystr) : Prop := str_leb a b = true /\ a <> b.

(** Every whitespace character of [s] is U+0020 and none follows another;
    with [after_space] the string does not start with one either. *)
Fixpoint single_spaced (after_space : bool) (s : pystr) : bool :=
  match s with
  | [] => true
  | c :: t =>
      if is_space c
      then eqb c (L1 " ") && negb after_space && single_spaced true t
      else single_spaced false t
  end.

(** [s.split()]: the maximal runs of characters that are not whitespace. *)
Fixpoint words (s : pystr) : list pystr :=
  match s with
  | [] => []
  | c :: t =>
      if is_space c then words t
      else match t with
           | [] => [[c]]
           | d :: _ =>
               if is_space d then [c] :: words t
               else match words t with
                    | w :: ws => (c :: w) :: ws
                    | [] => [[c]]
                    end
           end
  end.

(** [" ".join(ws)] *)
Fixpoint join (ws : list pystr) : pystr :=
  match ws with
  | [] => []
  | [w] => w
  | w :: ws' => w ++ L1 " " :: join ws'
  end.

(** The string starts with the text [t], letter case ignored, and a word
    boundary follows: what [^t\b] matches. *)
Definition starts_whole (t : string) (s : pystr) : Prop :=
  boundary s (length (str t)) = true /\
  forall k p, nth_error (str t) k = Some p ->
    exists c, nth_error s k = Some c /\ lit_match true p c = true.

(** The literal characters of a pattern. *)
Fixpoint literals (r : regex) : list char :=
  match r with
  | Atm (Lit p) | Rep (Lit p) _ _ => [p]
  | Cat r1 r2 | Alt r1 r2 => literals r1 ++ literals r2
  | Grp _ r' => literals r'
  | _ => []
  end.

(** Two characters that are equal or both decimal digits. *)
Definition same_but_digits (c c' : char) : Prop :=
  c = c' \/ (is_digit c = true /\ is_digit c' = true).

(** The string with every decimal digit replaced by [0]. *)
Definition zeroed (l : pystr) : pystr :=
  map (fun c => if is_digit c then L1 "0" else c) l.

(** * Properties *)

(** ** Characters *)

Lemma eqb_eq (c d : char) : eqb c d = true <-> c = d.
Proof.
  unfold eqb. rewrite N.eqb_eq. split; [| intros ->; reflexivity].
  destruct c as [a| | | | |], d as [b| | | | |]; simpl; intro H;
    try reflexivity; try discriminate H;
    try (pose proof (N_ascii_bounded a); lia);
    try (pose proof (N_ascii_bounded b); lia).
  apply (f_equal ascii_of_N) in H. rewrite !ascii_N_embedding in H. now subst.
Qed.

Lemma eqb_refl (c : char) : eqb c c = true.
Proof. now apply eqb_eq. Qed.

Lemma str_eqb_eq (a b : pystr) : str_eqb a b = true <-> a = b.
Proof.
  revert b. induction a as [| c a IH]; intros [| d b]; simpl; split;
    intro H; try reflexivity; try discriminate H.
  - apply andb_true_iff in H as [H1 H2].
    apply eqb_eq in H1. apply IH in H2. now subst.
  - injection H as -> ->. rewrite eqb_refl. now apply IH.
Qed.

Lemma str_eqb_refl (a : pystr) : str_eqb a a = true.
Proof. now apply str_eqb_eq. Qed.

Lemma str_eqb_neq (a b : pystr) : str_eqb a b = false <-> a <> b.
Proof.
  split.
  - intros H E. apply str_eqb_eq in E. congruence.
  - intro H. destruct (str_eqb a b) eqn:E; [| reflexivity].
    apply str_eqb_eq in E. contradiction.
Qed.

(** ** The engine finds exactly the matches of a pattern *)

Section EngineFacts.

Variable ignorecase : bool.
Variable s : pystr.

Local Abbreviation at_ok := (at_ok ignorecase s).
Local Abbreviation run := (run ignorecase s).
Local Abbreviation m := (m ignorecase s).
Local Abbreviation matches := (matches ignorecase s).

Lemma at_ok_lt a i : at_ok a i = true -> i < length s.
Proof.
  unfold Re.at_ok. destruct (nth_error s i) eqn:E; [| discriminate].
  intros _. apply nth_error_Some. congruence.
Qed.

Lemma run_le a fuel : forall i, run a i fuel <= fuel.
Proof.
  induction fuel as [| f IH]; intro i; simpl; [lia |].
  destruct (at_ok a i); [specialize (IH (S i)) |]; lia.
Qed.

Lemma run_ok a fuel : forall i t, t < run a i fuel -> at_ok a (i + t) = true.
Proof.
  induction fuel as [| f IH]; intros i t; simpl; [lia |].
  destruct (at_ok a i) eqn:E; [| lia].
  destruct t as [| t]; intro H.
  - now rewrite Nat.add_0_r.
  - replace (i + S t) with (S i + t) by lia. apply IH. lia.
Qed.

Lemma run_max a fuel : forall i n,
  n <= fuel -> (forall t, t < n -> at_ok a (i + t) = true) -> n <= run a i fuel.
Proof.
  induction fuel as [| f IH]; intros i n Hn Hok; simpl; [lia |].
  destruct n as [| n]; [lia |].
  rewrite <- (Nat.add_0_r i) at 1. rewrite (Hok 0) by lia.
  apply le_n_S, IH; [lia |].
  intros t Ht. replace (S i + t) with (i + S t) by lia. apply Hok. lia.
Qed.

Lemma back_some k i lo : forall n x,
  back k i lo n = Some x -> exists n', lo <= n' <= n /\ k (i + n') = Some x.
Proof.
  induction n as [| n IH]; intros x; simpl.
  - destruct (Nat.ltb 0 lo) eqn:E; [discriminate |].
    apply Nat.ltb_ge in E. destruct (k (i + 0)) eqn:K; [| discriminate].
    intro H. injection H as ->. exists 0. split; [lia | assumption].
  - destruct (Nat.ltb (S n) lo) eqn:E; [discriminate |].
    apply Nat.ltb_ge in E. destruct (k (i + S n)) eqn:K.
    + intro H. injection H as ->. exists (S n). split; [lia | assumption].
    + intro H. apply IH in H as (n' & Hn & Hk). exists n'. split; [lia | assumption].
Qed.

Lemma back_none k i lo : forall n,
  back k i lo n = None -> forall n', lo <= n' <= n -> k (i + n') = None.
Proof.
  induction n as [| n IH]; simpl; intros H n' Hn.
  - destruct (Nat.ltb 0 lo) eqn:E; [apply Nat.ltb_lt in E; lia |].
    replace n' with 0 by lia. destruct (k (i + 0)); [discriminate | reflexivity].
  - destruct (Nat.ltb (S n) lo) eqn:E; [apply Nat.ltb_lt in E; lia |].
    destruct (k (i + S n)) eqn:K; [discriminate |].
    destruct (Nat.eq_dec n' (S n)) as [-> | Hne]; [assumption |].
    apply IH; [assumption | lia].
Qed.

Lemma m_sound r : forall i g k x,
  m r i g k = Some x -> exists j g', matches r i g j g' /\ k j g' = Some x.
Proof.
  induction r as [| a | a lo hi | r1 IH1 r2 IH2 | r1 IH1 r2 IH2 | n r IH | | |];
    intros i g k x H; simpl in H.
  - exists i, g. split; [constructor | assumption].
  - destruct (at_ok a i) eqn:E; [| discriminate].
    exists (S i), g. split; [now constructor | assumption].
  - apply back_some in H as (n' & Hn & Hk).
    exists (i + n'), g. split; [| assumption].
    apply M_rep; [lia | |].
    + intros h ->. pose proof (run_le a h i). lia.
    + intros t Ht. eapply run_ok. eapply Nat.lt_le_trans; [exact Ht | apply Hn].
  - apply IH1 in H as (j & g1 & M1 & H). apply IH2 in H as (l & g2 & M2 & H).
    exists l, g2. split; [econstructor; eassumption | assumption].
  - destruct (m r1 i g k) eqn:E.
    + injection H as ->. apply IH1 in E as (j & g' & M1 & H).
      exists j, g'. split; [now apply M_alt_l | assumption].
    + apply IH2 in H as (j & g' & M2 & H).
      exists j, g'. split; [now apply M_alt_r | assumption].
  - apply IH in H as (j & g' & M1 & H).
    exists j, ((n, (i, j)) :: g'). split; [now constructor | assumption].
  - destruct (Nat.eqb i 0) eqn:E; [| discriminate]. apply Nat.eqb_eq in E. subst i.
    exists 0, g. split; [constructor | assumption].
  - destruct (at_end s i) eqn:E; [| discriminate].
    exists i, g. split; [now constructor | assumption].
  - destruct (boundary s i) eqn:E; [| discriminate].
    exists i, g. split; [now constructor | assumption].
Qed.

Lemma matches_eps_inv i g j g' : matches Eps i g j g' -> j = i /\ g' = g.
Proof. inversion 1; subst. now split. Qed.

Lemma matches_atm_inv a i g j g' :
  matches (Atm a) i g j g' -> at_ok a i = true /\ j = S i /\ g' = g.
Proof. inversion 1; subst. now repeat split. Qed.

Lemma matches_rep_inv a lo hi i g j g' :
  matches (Rep a lo hi) i g j g' ->
  g' = g /\ exists n, j = i + n /\ lo <= n /\ (forall h, hi = Some h -> n <= h) /\
                     forall t, t < n -> at_ok a (i + t) = true.
Proof. inversion 1; subst. split; [reflexivity |]. eexists. repeat split; eassumption. Qed.

Lemma matches_cat_inv r1 r2 i g l g2 :
  matches (Cat r1 r2) i g l g2 ->
  exists j g1, matches r1 i g j g1 /\ matches r2 j g1 l g2.
Proof. inversion 1; subst. eexists. eexists. split; eassumption. Qed.

Lemma matches_alt_inv r1 r2 i g j g' :
  matches (Alt r1 r2) i g j g' -> matches r1 i g j g' \/ matches r2 i g j g'.
Proof. inversion 1; subst; [now left | now right]. Qed.

Lemma matches_grp_inv n r i g j g' :
  matches (Grp n r) i g j g' ->
  exists g1, matches r i g j g1 /\ g' = (n, (i, j)) :: g1.
Proof. inversion 1; subst. eexists. split; [eassumption | reflexivity]. Qed.

Lemma matches_bol_inv i g j g' : matches Bol i g j g' -> i = 0 /\ j = 0 /\ g' = g.
Proof. inversion 1; subst. now repeat split. Qed.

Lemma matches_eol_inv i g j g' :
  matches Eol i g j g' -> at_end s i = true /\ j = i /\ g' = g.
Proof. inversion 1; subst. now repeat split. Qed.

Lemma matches_wordb_inv i g j g' :
  matches Wordb i g j g' -> boundary s i = true /\ j = i /\ g' = g.
Proof. inversion 1; subst. now repeat split. Qed.

Lemma m_complete r : forall i g k,
  m r i g k = None -> forall j g', matches r i g j g' -> k j g' = None.
Proof.
  induction r as [| a | a lo hi | r1 IH1 r2 IH2 | r1 IH1 r2 IH2 | n r IH | | |];
    intros i g k H j g' M; simpl in H.
  - apply matches_eps_inv in M as [-> ->]. assumption.
  - apply matches_atm_inv in M as (E & -> & ->). now rewrite E in H.
  - apply matches_rep_inv in M as (-> & n & -> & Hlo & Hhi & Hok).
    eapply back_none with (n' := n) in H; [exact H |].
    split; [exact Hlo |]. apply run_max; [| exact Hok].
    destruct hi as [h |]; [now apply Hhi |].
    destruct n as [| n']; [lia |].
    specialize (Hok n' (Nat.lt_succ_diag_r n')). apply at_ok_lt in Hok. lia.
  - apply matches_cat_inv in M as (j1 & g1 & M1 & M2).
    pose proof (IH1 _ _ _ H _ _ M1) as H2. simpl in H2.
    exact (IH2 _ _ _ H2 _ _ M2).
  - destruct (m r1 i g k) eqn:E; [discriminate |].
    apply matches_alt_inv in M as [M | M]; [eapply IH1 | eapply IH2]; eassumption.
  - apply matches_grp_inv in M as (g1 & M & ->).
    exact (IH _ _ _ H _ _ M).
  - apply matches_bol_inv in M as (-> & -> & ->). assumption.
  - apply matches_eol_inv in M as (E & -> & ->). now rewrite E in H.
  - apply matches_wordb_inv in M as (E & -> & ->). now rewrite E in H.
Qed.

(** A match stays within the string. *)
Lemma matches_bounds r : forall i g j g',
  matches r i g j g' -> i <= length s -> i <= j <= length s.
Proof.
  induction r as [| a | a lo hi | r1 IH1 r2 IH2 | r1 IH1 r2 IH2 | n r IH | | |];
    intros i g j g' M Hi.
  - apply matches_eps_inv in M as [-> ->]. lia.
  - apply matches_atm_inv in M as (E & -> & ->). apply at_ok_lt in E. lia.
  - apply matches_rep_inv in M as (-> & n & -> & Hlo & Hhi & Hok).
    destruct n as [| n']; [lia |].
    specialize (Hok n' (Nat.lt_succ_diag_r n')). apply at_ok_lt in Hok. lia.
  - apply matches_cat_inv in M as (j1 & g1 & M1 & M2).
    apply IH1 in M1; [| assumption]. apply IH2 in M2; lia.
  - apply matches_alt_inv in M as [M | M]; [eapply IH1 | eapply IH2]; eassumption.
  - apply matches_grp_inv in M as (g1 & M & ->). eapply IH; eassumption.
  - apply matches_bol_inv in M as (-> & -> & ->). lia.
  - apply matches_eol_inv in M as (E & -> & ->). lia.
  - apply matches_wordb_inv in M as (E & -> & ->). lia.
Qed.

Lemma search_from_sound r : forall fuel i mo,
  search_from ignorecase s r i fuel = Some mo ->
  i <= m_start mo <= i + fuel /\
  matches r (m_start mo) [] (m_end mo) (m_groups mo).
Proof.
  induction fuel as [| f IH]; intros i mo; simpl;
    destruct (m r i [] accept) as [[j g] |] eqn:E; intro H;
    try discriminate H.
  - injection H as <-. simpl. split; [lia |].
    apply m_sound in E as (j' & g' & M & A). injection A as -> ->. exact M.
  - injection H as <-. simpl. split; [lia |].
    apply m_sound in E as (j' & g' & M & A). injection A as -> ->. exact M.
  - apply IH in H as [Hb M]. split; [lia | exact M].
Qed.

Lemma search_from_none r : forall fuel i,
  search_from ignorecase s r i fuel = None ->
  forall i' j g, i <= i' <= i + fuel -> ~ matches r i' [] j g.
Proof.
  induction fuel as [| f IH]; intros i; simpl;
    destruct (m r i [] accept) as [[j0 g0] |] eqn:E; intro H;
    try discriminate H; intros i' j g Hi M.
  - replace i' with i in M by lia.
    pose proof (@m_complete _ _ _ _ E _ _ M) as A. discriminate A.
  - destruct (Nat.eq_dec i' i) as [-> | Hne].
    + pose proof (@m_complete _ _ _ _ E _ _ M) as A. discriminate A.
    + eapply IH; [exact H | | exact M]. lia.
Qed.

Lemma search_sound r mo :
  re_search ignorecase s r = Some mo ->
  m_start mo <= length s /\ matches r (m_start mo) [] (m_end mo) (m_groups mo).
Proof.
  intro H. apply search_from_sound in H as [Hb M]. split; [lia | exact M].
Qed.

Lemma search_none r :
  re_search ignorecase s r = None ->
  forall i j g, i <= length s -> ~ matches r i [] j g.
Proof.
  intros H i j g Hi. eapply search_from_none; [exact H | lia].
Qed.

(** [re.search] finds a match exactly when the pattern has one. *)
Lemma found_search r :
  found (re_search ignorecase s r) = true <->
  exists i j g, i <= length s /\ matches r i [] j g.
Proof.
  split.
  - destruct (re_search ignorecase s r) as [mo |] eqn:E; [| discriminate].
    intros _. apply search_sound in E as [Hb M]. eauto.
  - intros (i & j & g & Hi & M).
    destruct (re_search ignorecase s r) as [mo |] eqn:E; [reflexivity |].
    exfalso. eapply search_none; eassumption.
Qed.

Lemma match_sound r mo :
  re_match ignorecase s r = Some mo ->
  m_start mo = 0 /\ matches r 0 [] (m_end mo) (m_groups mo).
Proof.
  unfold re_match. destruct (m r 0 [] accept) as [[j g] |] eqn:E; [| discriminate].
  intro H. injection H as <-. simpl. split; [reflexivity |].
  apply m_sound in E as (j' & g' & M & A). injection A as -> ->. exact M.
Qed.

(** The matches of a literal text. *)
Lemma matches_lits t : forall i g j g',
  matches (lits t) i g j g' <->
  (j = i + length t /\ g' = g /\
   forall k a, nth_error t k = Some a -> at_ok (Lit (L1 a)) (i + k) = true).
Proof.
  induction t as [| a t IH]; intros i g j g'.
  - simpl. split.
    + intro M. apply matches_eps_inv in M as [-> ->].
      repeat split; [lia |]. intros [| k] b E; discriminate E.
    + intros (-> & -> & _). rewrite Nat.add_0_r. constructor.
  - destruct t as [| b t].
    + simpl. split.
      * intro M. apply matches_atm_inv in M as (E & -> & ->).
        repeat split; [lia |]. intros [| [| k]] c Ec; try discriminate Ec.
        injection Ec as <-. now rewrite Nat.add_0_r.
      * intros (-> & -> & Hk). replace (i + 1) with (S i) by lia.
        constructor. specialize (Hk 0 a eq_refl). now rewrite Nat.add_0_r in Hk.
    + change (lits (a :: b :: t)) with (Cat (Atm (Lit (L1 a))) (lits (b :: t))).
      split.
      * intro M. apply matches_cat_inv in M as (j1 & g1 & M1 & M2).
        apply matches_atm_inv in M1 as (E & -> & ->).
        apply IH in M2 as (-> & -> & Hk).
        repeat split; [simpl; lia |].
        intros [| k] c Ec.
        -- injection Ec as <-. now rewrite Nat.add_0_r.
        -- replace (i + S k) with (S i + k) by lia. now apply Hk.
      * intros (-> & -> & Hk).
        apply M_cat with (j := S i) (g1 := g).
        -- constructor. specialize (Hk 0 a eq_refl). now rewrite Nat.add_0_r in Hk.
        -- apply IH. repeat split; [simpl; lia |].
           intros k c Ec. replace (S i + k) with (i + S k) by lia. now apply Hk.
Qed.

End EngineFacts.

(** ** Properties of characters, by evaluation over the alphabet *)

Lemma all_chars_in (c : char) : In c all_chars.
Proof.
  unfold all_chars. apply in_or_app.
  destruct c as [a| | | | |]; [left | right; simpl; tauto ..].
  rewrite <- (ascii_nat_embedding a). apply in_map with (f := fun n => L1 (ascii_of_nat n)).
  apply in_seq. pose proof (nat_ascii_bounded a). lia.
Qed.

Lemma char_forall (P : char -> bool) :
  forallb P all_chars = true -> forall c, P c = true.
Proof.
  intros H c. rewrite forallb_forall in H. apply H, all_chars_in.
Qed.

(** [str.lower] keeps a character that is not whitespace free of whitespace. *)
Lemma lower_no_space (c : char) : is_space c = false -> no_space (lower c).
Proof.
  intro H.
  assert (A : (is_space c || forallb (fun x => negb (is_space x)) (lower c)) = true).
  { revert c H. intros c _. revert c. apply char_forall. vm_compute. reflexivity. }
  rewrite H in A. simpl in A. rewrite forallb_forall in A.
  apply Forall_forall. intros x Hx. apply A in Hx. now destruct (is_space x).
Qed.

(** A character that matches a literal which is not whitespace is not
    whitespace. *)
Lemma lit_match_no_space (p c : char) :
  is_space p = false -> lit_match true p c = true -> is_space c = false.
Proof.
  intros Hp Hm.
  assert (A : forallb (fun p => forallb (fun c =>
               is_space p || negb (lit_match true p c) || negb (is_space c))
               all_chars) all_chars = true) by (vm_compute; reflexivity).
  rewrite forallb_forall in A. specialize (A p (all_chars_in p)).
  rewrite forallb_forall in A. specialize (A c (all_chars_in c)).
  rewrite Hp, Hm in A. simpl in A. now destruct (is_space c).
Qed.

Lemma digit_no_space (c : char) : is_digit c = true -> is_space c = false.
Proof.
  intro H.
  assert (A : (negb (is_digit c) || negb (is_space c)) = true)
    by (revert c H; intros c _; revert c; apply char_forall; vm_compute; reflexivity).
  rewrite H in A. simpl in A. now destruct (is_space c).
Qed.

(** ** Slices *)

Lemma skipn_nth (s : pystr) : forall a c,
  nth_error s a = Some c -> skipn a s = c :: skipn (S a) s.
Proof.
  induction s as [| d s IH]; intros [| a] c H; simpl in *; try discriminate H.
  - now injection H as ->.
  - now apply IH.
Qed.

Lemma slice_same (s : pystr) a : slice s a a = [].
Proof. unfold slice. now rewrite Nat.sub_diag. Qed.

Lemma slice_cons (s : pystr) a b c :
  nth_error s a = Some c -> a < b -> slice s a b = c :: slice s (S a) b.
Proof.
  intros H Hab. unfold slice. rewrite (skipn_nth _ _ H).
  replace (b - a) with (S (b - S a)) by lia. reflexivity.
Qed.

Lemma slice_app (s : pystr) n : forall a m,
  a + n <= length s ->
  slice s a (a + (n + m)) = slice s a (a + n) ++ slice s (a + n) (a + n + m).
Proof.
  induction n as [| n IH]; intros a m Ha.
  - rewrite Nat.add_0_r, slice_same. reflexivity.
  - destruct (nth_error s a) as [c |] eqn:E.
    + rewrite (slice_cons _ (b := a + (S n + m)) E) by lia.
      rewrite (slice_cons _ (b := a + S n) E) by lia.
      replace (a + (S n + m)) with (S a + (n + m)) by lia.
      replace (a + S n) with (S a + n) by lia.
      rewrite IH by lia. reflexivity.
    + apply nth_error_None in E. lia.
Qed.

Lemma slice_all (P : char -> bool) (s : pystr) n : forall a,
  (forall t, t < n -> exists c, nth_error s (a + t) = Some c /\ P c = true) ->
  length (slice s a (a + n)) = n /\ Forall (fun c => P c = true) (slice s a (a + n)).
Proof.
  induction n as [| n IH]; intros a H.
  - rewrite Nat.add_0_r, slice_same. split; [reflexivity | constructor].
  - destruct (H 0) as (c & E & Pc); [lia |]. rewrite Nat.add_0_r in E.
    rewrite (slice_cons _ (b := a + S n) E) by lia.
    replace (a + S n) with (S a + n) by lia.
    destruct (IH (S a)) as [L F].
    { intros t Ht. replace (S a + t) with (a + S t) by lia. apply H. lia. }
    split; [cbn [length]; now rewrite L | now constructor].
Qed.

Lemma slice_lits (s : pystr) (t : list ascii) : forall a,
  (forall k p, nth_error t k = Some p -> at_ok true s (Lit (L1 p)) (a + k) = true) ->
  Forall2 (fun p c => lit_match true (L1 p) c = true) t (slice s a (a + length t)).
Proof.
  induction t as [| p t IH]; intros a H.
  - simpl. rewrite Nat.add_0_r, slice_same. constructor.
  - pose proof (H 0 p eq_refl) as H0. rewrite Nat.add_0_r in H0.
    unfold at_ok in H0. destruct (nth_error s a) as [c |] eqn:E; [| discriminate].
    simpl in H0. simpl length.
    rewrite (slice_cons _ (b := a + S (length t)) E) by lia.
    replace (a + S (length t)) with (S a + length t) by lia.
    constructor; [exact H0 |]. apply IH.
    intros k q Hq. replace (S a + k) with (a + S k) by lia. now apply H.
Qed.

Lemma at_ok_char ic (s : pystr) a i :
  at_ok ic s a i = true -> exists c, nth_error s i = Some c /\ atom_ok ic a c = true.
Proof.
  unfold at_ok. destruct (nth_error s i) as [c |]; [| discriminate].
  intro H. now exists c.
Qed.

(** ** What the matches of the program's patterns look like *)

Lemma tone_match (s : pystr) (mo : mobj) :
  re_search true s TONE_RE = Some mo ->
  (exists c, nth_error s (m_start mo) = Some c /\ is_space c = true) /\
  (like "light" (group s mo 1) \/ like "dark" (group s mo 1)).
Proof.
  intro H. apply search_sound in H as [_ M]. unfold TONE_RE in M.
  apply matches_cat_inv in M as (j1 & g1 & M1 & M).
  apply matches_rep_inv in M1 as (-> & n & -> & Hn & _ & Hok).
  apply matches_cat_inv in M as (j2 & g2 & M2 & M3).
  apply matches_eol_inv in M3 as (_ & _ & Eg).
  apply matches_grp_inv in M2 as (g3 & M2 & E2).
  split.
  - specialize (Hok 0 ltac:(lia)). rewrite Nat.add_0_r in Hok.
    apply at_ok_char in Hok. exact Hok.
  - unfold group. rewrite Eg, E2. simpl span_of.
    apply matches_alt_inv in M2 as [M2 | M2]; [left | right];
      apply matches_lits in M2 as (-> & _ & Hk); apply slice_lits; exact Hk.
Qed.

Lemma size_match (s : pystr) (mo : mobj) :
  re_search true s SIZE_RE = Some mo ->
  exists w x h, group s mo 1 = w ++ x :: h /\ digits w /\ digits h /\
                lit_match true (L1 "x") x = true.
Proof.
  intro H. apply search_sound in H as [_ M]. unfold SIZE_RE in M.
  apply matches_grp_inv in M as (g1 & M & E).
  apply matches_cat_inv in M as (j1 & g2 & M1 & M).
  apply matches_rep_inv in M1 as (-> & n1 & -> & Hlo1 & Hhi1 & Hok1).
  apply matches_cat_inv in M as (j2 & g3 & M2 & M3).
  apply matches_rep_inv in M3 as (-> & n2 & E2 & Hlo2 & Hhi2 & Hok2).
  apply (matches_lits true s ["x"%char]) in M2 as (-> & -> & Hx).
  specialize (Hx 0 "x"%char eq_refl). rewrite Nat.add_0_r in Hx.
  apply at_ok_char in Hx as (x & Ex & Hx).
  unfold group. rewrite E. simpl span_of. rewrite E2.
  set (i := m_start mo) in *.
  assert (Hi : i + n1 < length s) by (apply nth_error_Some; congruence).
  destruct (slice_all is_digit s (n := n1) i) as [L1' F1].
  { intros t Ht. apply (@at_ok_char true s Digit). now apply Hok1. }
  destruct (slice_all is_digit s (n := n2) (i + n1 + length ["x"%char])) as [L2' F2].
  { intros t Ht. apply (@at_ok_char true s Digit). now apply Hok2. }
  exists (slice s i (i + n1)), x, (slice s (i + n1 + 1) (i + n1 + 1 + n2)).
  repeat split.
  - simpl length. replace (i + n1 + 1 + n2) with (i + (n1 + (1 + n2))) by lia.
    rewrite slice_app by lia. f_equal.
    rewrite (slice_cons _ (b := i + n1 + (1 + n2)) Ex) by lia.
    f_equal. f_equal; lia.
  - exact F1.
  - lia.
  - specialize (Hhi1 4 eq_refl). lia.
  - exact F2.
  - simpl length in L2'. lia.
  - specialize (Hhi2 4 eq_refl). simpl length in L2'. lia.
  - exact Hx.
Qed.

(** ** The fields of a parsed name *)

Lemma lit_lower (p : ascii) (c : char) :
  forallb (fun c => implb (lit_match true (L1 p) c) (str_eqb (lower c) [L1 p]))
          all_chars = true ->
  lit_match true (L1 p) c = true -> lower c = [L1 p].
Proof.
  intros A H. rewrite forallb_forall in A. specialize (A c (all_chars_in c)).
  rewrite H in A. now apply str_eqb_eq.
Qed.

Lemma lit_among (p : ascii) (c : char) :
  lit_match true (L1 p) c = true -> In c (filter (lit_match true (L1 p)) all_chars).
Proof. intro H. apply filter_In. split; [apply all_chars_in | exact H]. Qed.

Lemma digit_lower (c : char) : is_digit c = true -> lower c = [c].
Proof.
  intro H.
  assert (A : implb (is_digit c) (str_eqb (lower c) [c]) = true)
    by (revert c H; intros c _; revert c; apply char_forall; vm_compute; reflexivity).
  rewrite H in A. now apply str_eqb_eq.
Qed.

Lemma lower_digits (w : pystr) :
  Forall (fun c => is_digit c = true) w -> lower_str w = w.
Proof.
  induction 1 as [| c w Hc _ IH]; [reflexivity |].
  unfold lower_str in *. simpl. rewrite IH, (digit_lower _ Hc). reflexivity.
Qed.

Lemma lower_str_app (a b : pystr) : lower_str (a ++ b) = lower_str a ++ lower_str b.
Proof. unfold lower_str. apply flat_map_app. Qed.

Ltac like_inv H :=
  repeat match type of H with
         | Forall2 _ (_ :: _) _ =>
             let c := fresh "c" in let u := fresh "u" in
             let Hc := fresh "Hc" in let Hu := fresh "Hu" in
             inversion H as [| ? c ? u Hc Hu]; subst; clear H; rename Hu into H
         | Forall2 _ [] _ => inversion H; subst; clear H
         end.

(** The tone words the tone pattern can leave behind after [lower()]:
    U+0130 and U+0131 match the [i] of [light] and do not lower to it. *)
Lemma like_dark (g : pystr) : like "dark" g -> lower_str g = str "dark".
Proof.
  unfold like. cbn [list_ascii_of_string]. intro H. like_inv H.
  unfold lower_str. cbn [flat_map].
  repeat match goal with
         | Hc : lit_match true (L1 _) _ = true |- _ =>
             apply lit_lower in Hc; [rewrite Hc; clear Hc | vm_compute; reflexivity]
         end.
  reflexivity.
Qed.

Lemma like_light (g : pystr) :
  like "light" g ->
  lower_str g = str "light" \/
  lower_str g = [L1 "l"; L1 "i"; U0307; L1 "g"; L1 "h"; L1 "t"] \/
  lower_str g = [L1 "l"; U0131; L1 "g"; L1 "h"; L1 "t"].
Proof.
  unfold like. cbn [list_ascii_of_string]. intro H. like_inv H.
  unfold lower_str. cbn [flat_map].
  match goal with
  | Hi : lit_match true (L1 "i") ?c = true |- _ =>
      apply lit_among in Hi; vm_compute in Hi
  end.
  repeat match goal with
         | Hc : lit_match true (L1 _) _ = true |- _ =>
             apply lit_lower in Hc; [rewrite Hc; clear Hc | vm_compute; reflexivity]
         end.
  match goal with
  | Hi : _ \/ _ |- _ =>
      destruct Hi as [<- | [<- | [<- | [<- | []]]]]; vm_compute; tauto
  end.
Qed.

Lemma family_of_cases (s f : pystr) :
  family_of s = Some f -> f = str "template" \/ f = str "aquarell".
Proof.
  unfold family_of.
  repeat match goal with |- context [if ?b then _ else _] => destruct b end;
    intro H; inversion H; tauto.
Qed.

Lemma variant_of_cases (s : pystr) :
  variant_of s = str "full" \/ variant_of s = str "crop" \/ variant_of s = str "close".
Proof.
  unfold variant_of.
  repeat match goal with |- context [if ?b then _ else _] => destruct b end; tauto.
Qed.

Lemma parse_inv (name : pystr) (d : descriptor) :
  parse_filename name = Some d ->
  exists m_tone m_size fam,
    found (re_search true name PNG_RE) = true /\
    re_search true (base_of name) TONE_RE = Some m_tone /\
    re_search true (wo_tone (base_of name) m_tone) SIZE_RE = Some m_size /\
    family_of (wo_tone (base_of name) m_tone) = Some fam /\
    d = Descriptor name fam
          (lower_str (group (wo_tone (base_of name) m_tone) m_size 1))
          (variant_of (wo_tone (base_of name) m_tone))
          (lower_str (group (base_of name) m_tone 1)).
Proof.
  unfold parse_filename.
  destruct (found (re_search true name PNG_RE)) eqn:Ep; [| discriminate].
  simpl negb. cbv iota.
  destruct (re_search true (base_of name) TONE_RE) as [m_tone |] eqn:Et;
    [| discriminate].
  destruct (re_search true (wo_tone (base_of name) m_tone) SIZE_RE) as [m_size |] eqn:Es;
    [| discriminate].
  destruct (family_of (wo_tone (base_of name) m_tone)) as [fam |] eqn:Ef;
    [| discriminate].
  intro H. injection H as <-. exists m_tone, m_size, fam. repeat split; assumption.
Qed.

(** Every field of a parsed name, exactly. *)
Lemma parse_fields (name : pystr) (d : descriptor) :
  parse_filename name = Some d ->
  original d = name /\
  (family d = str "template" \/ family d = str "aquarell") /\
  (exists w h, size d = w ++ str "x" ++ h /\ digits w /\ digits h) /\
  (variant d = str "full" \/ variant d = str "crop" \/ variant d = str "close") /\
  (tone d = str "light" \/ tone d = str "dark" \/
   tone d = [L1 "l"; L1 "i"; U0307; L1 "g"; L1 "h"; L1 "t"] \/
   tone d = [L1 "l"; U0131; L1 "g"; L1 "h"; L1 "t"]).
Proof.
  intro H. apply parse_inv in H as (m_tone & m_size & fam & _ & Ht & Hs & Hf & ->).
  simpl. split; [reflexivity |]. split; [eapply family_of_cases; eassumption |].
  split; [| split; [apply variant_of_cases |]].
  - apply size_match in Hs as (w & x & h & -> & Hw & Hh & Hx).
    exists w, h. split; [| split; assumption].
    change (w ++ x :: h) with (w ++ [x] ++ h). rewrite !lower_str_app.
    rewrite (lower_digits (proj1 Hw)), (lower_digits (proj1 Hh)).
    unfold lower_str at 1. simpl flat_map.
    apply lit_lower in Hx; [| vm_compute; reflexivity]. rewrite Hx. reflexivity.
  - apply tone_match in Ht as [_ [L | D]].
    + apply like_light in L. tauto.
    + apply like_dark in D. tauto.
Qed.

(** ** Names without whitespace are rejected, and built names have none *)

Lemma no_space_check (s : pystr) :
  forallb (fun c => negb (is_space c)) s = true -> no_space s.
Proof.
  intro H. rewrite forallb_forall in H. apply Forall_forall.
  intros c Hc. apply H in Hc. now destruct (is_space c).
Qed.

Lemma no_space_app (a b : pystr) : no_space a -> no_space b -> no_space (a ++ b).
Proof. intros Ha Hb. apply Forall_app. now split. Qed.

Lemma no_space_firstn n (s : pystr) : no_space s -> no_space (firstn n s).
Proof.
  intro H. rewrite <- (firstn_skipn n s) in H. now apply Forall_app in H.
Qed.

Lemma sub_spaces_no_space (s : pystr) :
  no_space s -> forall b, sub_spaces b s = s.
Proof.
  induction 1 as [| c s Hc _ IH]; intro b; simpl; [reflexivity |].
  rewrite Hc, IH. reflexivity.
Qed.

Lemma dropwhile_no_space (s : pystr) : no_space s -> dropwhile is_space s = s.
Proof. destruct 1 as [| c s Hc _]; simpl; [| rewrite Hc]; reflexivity. Qed.

Lemma strip_no_space (s : pystr) : no_space s -> strip s = s.
Proof.
  intro H. unfold strip. rewrite (dropwhile_no_space H).
  rewrite dropwhile_no_space by now apply Forall_rev.
  apply rev_involutive.
Qed.

Lemma base_of_no_space (name : pystr) : no_space name -> no_space (base_of name).
Proof.
  intro H. unfold base_of, norm_spaces.
  pose proof (no_space_firstn (length name - 4) H) as F.
  rewrite (sub_spaces_no_space F), (strip_no_space F). exact F.
Qed.

Lemma tone_needs_space (s : pystr) : no_space s -> re_search true s TONE_RE = None.
Proof.
  intro H. destruct (re_search true s TONE_RE) as [mo |] eqn:E; [| reflexivity].
  apply tone_match in E as [(c & Ec & Sc) _].
  apply nth_error_In in Ec. unfold no_space in H. rewrite Forall_forall in H.
  apply H in Ec. congruence.
Qed.

Lemma parse_no_space (name : pystr) : no_space name -> parse_filename name = None.
Proof.
  intro H. unfold parse_filename.
  destruct (negb (found (re_search true name PNG_RE))); [reflexivity |].
  now rewrite (tone_needs_space (base_of_no_space H)).
Qed.

Lemma digits_no_space (w : pystr) : digits w -> no_space w.
Proof.
  intros [F _]. unfold no_space. rewrite Forall_forall in *.
  intros c Hc. apply digit_no_space, F, Hc.
Qed.

Lemma build_no_space (name : pystr) (d : descriptor) :
  parse_filename name = Some d -> no_space (build_new_name d).
Proof.
  intro H. apply parse_fields in H as (_ & Hf & (w & h & Hs & Hw & Hh) & Hv & Ht).
  unfold build_new_name. rewrite Hs.
  repeat apply no_space_app;
    try (apply no_space_check; reflexivity);
    try (now apply digits_no_space).
  - destruct Hf as [-> | ->]; apply no_space_check; reflexivity.
  - destruct Hv as [-> | [-> | ->]]; apply no_space_check; reflexivity.
  - destruct Ht as [-> | [-> | [-> | ->]]]; apply no_space_check; reflexivity.
Qed.

(** A parsed name holds whitespace, so it differs from the name built for
    it: the test [new_name == p.name] never succeeds. *)
Lemma build_differs (name : pystr) (d : descriptor) :
  parse_filename name = Some d -> build_new_name d <> name.
Proof.
  intros H E. pose proof (build_no_space _ H) as B. rewrite E in B.
  apply parse_no_space in B. congruence.
Qed.

(** ** Whole words *)

Lemma boundary_le (s : pystr) i : boundary s i = true -> i <= length s.
Proof.
  unfold boundary, word_at. intro H.
  destruct (nth_error s i) as [c |] eqn:E.
  - assert (i < length s) by (apply nth_error_Some; congruence). lia.
  - destruct i as [| j]; [lia |].
    destruct (nth_error s j) as [c |] eqn:Ej; [| discriminate H].
    assert (j < length s) by (apply nth_error_Some; congruence). lia.
Qed.

Lemma str_length (t : string) : length (str t) = length (list_ascii_of_string t).
Proof. unfold str. apply length_map. Qed.

Lemma whole_matches (t : string) (s : pystr) i g j g' :
  matches true s (whole t) i g j g' <->
  (whole_at (str t) s i /\ j = i + length (str t) /\ g' = g).
Proof.
  unfold whole, text, whole_at. rewrite str_length. split.
  - intro M. apply matches_cat_inv in M as (j1 & g1 & M1 & M).
    apply matches_wordb_inv in M1 as (B1 & -> & ->).
    apply matches_cat_inv in M as (j2 & g2 & M2 & M3).
    apply matches_wordb_inv in M3 as (B2 & -> & ->).
    apply matches_lits in M2 as (-> & -> & Hk).
    repeat split; try assumption.
    intros k p Hp. unfold str in Hp. rewrite nth_error_map in Hp.
    destruct (nth_error (list_ascii_of_string t) k) as [a |] eqn:Ea; [| discriminate].
    injection Hp as <-. apply (@at_ok_char true s (Lit (L1 a))). now apply Hk.
  - intros ((B1 & B2 & Hk) & -> & ->).
    apply M_cat with (j := i) (g1 := g); [now constructor |].
    apply M_cat with (j := i + length (list_ascii_of_string t)) (g1 := g);
      [| now constructor].
    apply matches_lits. repeat split.
    intros k a Ha. destruct (Hk k (L1 a)) as (c & Ec & Hc).
    { unfold str. rewrite nth_error_map, Ha. reflexivity. }
    unfold at_ok. now rewrite Ec.
Qed.

(** The search for [\bt\b] succeeds exactly when [t] stands somewhere in
    the string as a whole word. *)
Lemma whole_found (t : string) (s : pystr) :
  found (re_search true s (whole t)) = true <-> contains_whole t s.
Proof.
  rewrite found_search. unfold contains_whole. split.
  - intros (i & j & g & _ & M). apply whole_matches in M as (W & _). now exists i.
  - intros (i & W). exists i, (i + length (str t)), [].
    split; [apply boundary_le, W | now apply whole_matches].
Qed.

Lemma variant_cropped (s : pystr) :
  contains_whole "cropped" s -> variant_of s = str "crop".
Proof.
  intro H. apply whole_found in H. unfold variant_of, CROPPED_RE. now rewrite H.
Qed.

Lemma parse_variant (name : pystr) (d : descriptor) (bwt : pystr) :
  parse_filename name = Some d -> base_wo_tone_of name = Some bwt ->
  variant d = variant_of bwt.
Proof.
  intros H B. apply parse_inv in H as (m_tone & m_size & fam & _ & Ht & _ & _ & ->).
  unfold base_wo_tone_of in B. rewrite Ht in B. injection B as <-. reflexivity.
Qed.

(** ** Sorting, counting and the set of duplicates *)

Section SortedFacts.

Variable A : Type.
Variable key : A -> pystr.

Lemma insert_sorted_perm (x : A) (l : list A) :
  Permutation (insert_sorted key x l) (x :: l).
Proof.
  induction l as [| y l IH]; simpl; [reflexivity |].
  destruct (str_leb (key x) (key y)); [reflexivity |].
  rewrite IH. apply perm_swap.
Qed.

Lemma sorted_perm (l : list A) : Permutation (sorted key l) l.
Proof.
  induction l as [| x l IH]; simpl; [reflexivity |].
  rewrite insert_sorted_perm. now constructor.
Qed.

Lemma sorted_In (l : list A) (x : A) : In x (sorted key l) <-> In x l.
Proof.
  split; apply Permutation_in; [| symmetry]; apply sorted_perm.
Qed.

Lemma sorted_nil (l : list A) : sorted key l = [] <-> l = [].
Proof.
  split; [| now intros ->].
  intro H. pose proof (sorted_perm l) as P. rewrite H in P.
  now apply Permutation_nil in P.
Qed.

End SortedFacts.

Lemma count_pos (t : pystr) (l : list pystr) : 0 < count t l <-> In t l.
Proof.
  unfold count. induction l as [| x l IH]; simpl; [split; [lia | tauto] |].
  destruct (str_eqb t x) eqn:E; simpl.
  - apply str_eqb_eq in E. subst. split; [tauto | lia].
  - apply str_eqb_neq in E. rewrite IH. split; [tauto |].
    intros [H | H]; [congruence | assumption].
Qed.

Lemma dedup_In (l : list pystr) (t : pystr) : In t (dedup l) <-> In t l.
Proof.
  induction l as [| x l IH]; simpl; [tauto |].
  destruct (existsb (str_eqb x) l) eqn:E; simpl; rewrite IH; [| tauto].
  apply existsb_exists in E as (y & Hy & Exy). apply str_eqb_eq in Exy. subst y.
  split; [tauto |]. intros [<- | H]; assumption.
Qed.

Lemma dedup_NoDup (l : list pystr) : NoDup (dedup l).
Proof.
  induction l as [| x l IH]; simpl; [constructor |].
  destruct (existsb (str_eqb x) l) eqn:E; [assumption |].
  constructor; [| assumption]. rewrite dedup_In. intro H.
  assert (X : existsb (str_eqb x) l = true)
    by (apply existsb_exists; exists x; split; [assumption | apply str_eqb_refl]).
  congruence.
Qed.

(** The reported duplicates are exactly the targets that occur more than
    once, each reported once. *)
Lemma dupes_of_In (ts : list pystr) (t : pystr) :
  In t (dupes_of ts) <-> 1 < count t ts.
Proof.
  unfold dupes_of. rewrite sorted_In, dedup_In, filter_In, Nat.ltb_lt.
  split; [tauto |]. intro H. split; [| assumption]. apply count_pos. lia.
Qed.

Lemma dupes_of_NoDup (ts : list pystr) : NoDup (dupes_of ts).
Proof.
  unfold dupes_of.
  eapply Permutation_NoDup; [symmetry; apply sorted_perm | apply dedup_NoDup].
Qed.

Lemma dupes_of_nil (ts : list pystr) : dupes_of ts = [] <-> forall t, count t ts <= 1.
Proof.
  split.
  - intros H t. destruct (le_lt_dec (count t ts) 1) as [L | L]; [assumption |].
    apply dupes_of_In in L. rewrite H in L. destruct L.
  - intro H. destruct (dupes_of ts) as [| t l] eqn:E; [reflexivity |].
    assert (L : In t (dupes_of ts)) by (rewrite E; now left).
    apply dupes_of_In in L. specialize (H t). lia.
Qed.

(** ** The plan *)

Lemma mappings_of_In (ps : list entry) (src dst : pystr) :
  In (src, dst) (mappings_of ps) <->
  exists e parsed, In e ps /\ e_name e = src /\
    parse_filename src = Some parsed /\ dst = build_new_name parsed.
Proof.
  induction ps as [| p ps IH].
  - simpl. split; [tauto | intros (e & parsed & [] & _)].
  - cbn [mappings_of].
    destruct (parse_filename (e_name p)) as [parsed |] eqn:E.
    + pose proof (build_differs E) as D. apply str_eqb_neq in D.
      cbv zeta. rewrite D. split.
      * intros [H | H].
        -- injection H as <- <-. exists p, parsed. repeat split; [now left | exact E].
        -- apply IH in H as (e & q & He & H). exists e, q. split; [now right | exact H].
      * intros (e & q & [<- | He] & Hn & Hq & Hd).
        -- left. subst src. rewrite E in Hq. injection Hq as <-. now subst dst.
        -- right. apply IH. exists e, q. tauto.
    + rewrite IH. split.
      * intros (e & q & He & H). exists e, q. split; [now right | exact H].
      * intros (e & q & [<- | He] & Hn & Hq & Hd).
        -- subst src. congruence.
        -- exists e, q. tauto.
Qed.

Lemma plan_In (d : directory) (src dst : pystr) :
  In (src, dst) (mappings_of (pngs d)) <->
  exists e parsed, In e d /\ is_png e = true /\ e_name e = src /\
    parse_filename src = Some parsed /\ dst = build_new_name parsed.
Proof.
  rewrite mappings_of_In. unfold pngs. split.
  - intros (e & q & He & H). apply sorted_In, filter_In in He. exists e, q. tauto.
  - intros (e & q & He & Hp & H). exists e, q. split; [| exact H].
    apply sorted_In, filter_In. tauto.
Qed.

(** A target is never one of the plan's sources: a source parses, a built
    name does not. *)
Lemma target_not_source (d : directory) (t : pystr) :
  In t (targets (mappings_of (pngs d))) -> ~ In t (sources (mappings_of (pngs d))).
Proof.
  unfold targets, sources. intros Ht Hs.
  apply in_map_iff in Ht as ([s1 t1] & E1 & H1). simpl in E1. subst t1.
  apply in_map_iff in Hs as ([s2 t2] & E2 & H2). simpl in E2. subst s2.
  apply plan_In in H1 as (e1 & q1 & _ & _ & _ & P1 & ->).
  apply plan_In in H2 as (e2 & q2 & _ & _ & _ & P2 & _).
  apply build_no_space, parse_no_space in P1. congruence.
Qed.

Lemma count_two (ms : list rename) (a b t : pystr) :
  a <> b -> In (a, t) ms -> In (b, t) ms -> 1 < count t (targets ms).
Proof.
  intros Hab. induction ms as [| [s u] ms IH]; simpl; [tauto |].
  assert (C : forall x, In (x, t) ms -> 0 < count t (targets ms)).
  { intros x Hx. apply count_pos. unfold targets.
    apply in_map_iff. exists (x, t). now split. }
  unfold count in *. simpl.
  intros [Ha | Ha] [Hb | Hb].
  - congruence.
  - injection Ha as -> ->. rewrite str_eqb_refl. simpl. apply C in Hb. lia.
  - injection Hb as -> ->. rewrite str_eqb_refl. simpl. apply C in Ha. lia.
  - specialize (IH Ha Hb). destruct (str_eqb t u); simpl; lia.
Qed.

(** The name built for a parsed descriptor does not parse again: it holds
    no whitespace, and the tone pattern asks for some. *)
Lemma built_name_rejected (name : pystr) (d : descriptor) :
  parse_filename name = Some d -> parse_filename (build_new_name d) = None.
Proof. intro H. apply parse_no_space. exact (build_no_space _ H). Qed.

(** ** Runs of the planner *)

Section Runs.

Variable World : Type.
Variable listing : World -> directory.
Variable mover : bool -> rename -> World -> move_result World.

Local Abbreviation run := (main listing mover).
Local Abbreviation planned := (plan_of listing).
Local Abbreviation untouched := (fun w : World => Executed w [] None).

Lemma main_collision (apply use_git : bool) (w : World) :
  (exists t, 1 < count t (targets (planned w))) ->
  run apply use_git w = (NameCollisions (dupes_of (targets (planned w))), untouched w).
Proof.
  intros (t & Ht). unfold main. cbv zeta.
  destruct (plan_of listing w) as [| e ms] eqn:E.
  - unfold count in Ht. simpl in Ht. lia.
  - destruct (dupes_of (targets (e :: ms))) as [| x l] eqn:D; [| reflexivity].
    pose proof (proj1 (dupes_of_nil _) D t). lia.
Qed.



Lemma execute_all_moved (use_git : bool) (plan : list rename) : forall w w1,
  all_moved mover use_git plan w = Some w1 ->
  execute mover use_git plan w = Executed w1 plan None.
Proof.
  induction plan as [| e plan IH]; intros w w1 H; simpl in *.
  - now injection H as <-.
  - destruct (mover use_git e w) as [w' | x' w']; [| discriminate].
    rewrite (IH _ _ H). reflexivity.
Qed.

Lemma execute_first_failure (use_git : bool) (pre : list rename) e post x :
  forall w w1 w2,
  all_moved mover use_git pre w = Some w1 ->
  mover use_git e w1 = Raised x w2 ->
  execute mover use_git (pre ++ e :: post) w = Executed w2 (pre ++ [e]) (Some (e, x)).
Proof.
  induction pre as [| p pre IH]; intros w w1 w2 H R; simpl in *.
  - injection H as <-. now rewrite R.
  - destruct (mover use_git p w) as [w' | x' w']; [| discriminate].
    rewrite (IH _ _ _ H R). reflexivity.
Qed.

End Runs.

(** ** The second run *)

Lemma selected_in_plan (d : directory) (e : entry) :
  In e d -> selected e = true -> In (e_name e) (sources (mappings_of (pngs d))).
Proof.
  unfold selected. intros He H. apply andb_true_iff in H as [Hp H].
  destruct (parse_filename (e_name e)) as [parsed |] eqn:E; [| discriminate].
  unfold sources. apply in_map_iff. exists (e_name e, build_new_name parsed).
  split; [reflexivity |]. apply plan_In. exists e, parsed. tauto.
Qed.

Lemma nothing_selected (d : directory) :
  (forall e, In e d -> selected e = false) -> mappings_of (pngs d) = [].
Proof.
  intro H. destruct (mappings_of (pngs d)) as [| [src dst] ms] eqn:E; [reflexivity |].
  assert (X : In (src, dst) (mappings_of (pngs d))) by (rewrite E; now left).
  apply plan_In in X as (e & parsed & He & Hp & Hn & Hq & Hd).
  specialize (H e He). unfold selected in H. rewrite Hp, Hn, Hq in H.
  pose proof (build_differs Hq) as D. apply str_eqb_neq in D.
  rewrite D in H. discriminate H.
Qed.

Lemma unparsed_unselected (t : pystr) (b : kind) :
  parse_filename t = None -> selected (Entry t b) = false.
Proof.
  intro H. unfold selected. simpl. rewrite H. apply andb_false_r.
Qed.

Lemma rename_entry_In (r : rename) (d : directory) (e : entry) :
  In e (rename_entry r d) ->
  (exists b, e = Entry (snd r) b) \/ (In e d /\ e_name e <> fst r).
Proof.
  unfold rename_entry. intro H. apply in_map_iff in H as (e0 & E & H0).
  apply filter_In in H0 as [H0 _].
  destruct (str_eqb (e_name e0) (fst r)) eqn:N.
  - left. exists (e_kind e0). now subst e.
  - right. subst e. apply str_eqb_neq in N. now split.
Qed.

Section SecondRun.

Variable World : Type.
Variable listing : World -> directory.
Variable mover : bool -> rename -> World -> move_result World.

(** A move that returns has renamed the source entry in the listing. *)
Hypothesis mover_renames : forall use_git r w w',
  mover use_git r w = Moved w' -> listing w' = rename_entry r (listing w).

Lemma all_moved_unselect (use_git : bool) (ms : list rename) : forall w w1,
  all_moved mover use_git ms w = Some w1 ->
  (forall r, In r ms -> parse_filename (snd r) = None) ->
  (forall e, In e (listing w) -> selected e = true -> In (e_name e) (sources ms)) ->
  forall e, In e (listing w1) -> selected e = false.
Proof.
  induction ms as [| r ms IH]; intros w w1 H T S; simpl in H.
  - injection H as <-. intros e He.
    destruct (selected e) eqn:X; [| reflexivity]. destruct (S e He X).
  - destruct (mover use_git r w) as [w' | x' w'] eqn:M; [| discriminate].
    apply (IH _ _ H); [intros r' Hr'; apply T; now right |].
    intros e He X. rewrite (mover_renames M) in He.
    apply rename_entry_In in He as [(b & ->) | [He Hn]].
    + rewrite unparsed_unselected in X; [discriminate | apply T; now left].
    + destruct (S e He X) as [Hs | Hs]; [congruence | exact Hs].
Qed.

Lemma execute_done (use_git : bool) (ms : list rename) : forall w,
  failed (execute mover use_git ms w) = None ->
  all_moved mover use_git ms w = Some (final (execute mover use_git ms w)).
Proof.
  induction ms as [| r ms IH]; intros w H; simpl in *; [reflexivity |].
  destruct (mover use_git r w) as [w' | x' w']; [| discriminate].
  simpl in *. now apply IH.
Qed.

Lemma main_done_inv (apply use_git : bool) (w : World) ms r :
  main listing mover apply use_git w = (Done ms, r) ->
  ms = plan_of listing w /\ all_moved mover use_git ms w = Some (final r).
Proof.
  unfold main. cbv zeta.
  destruct (plan_of listing w) as [| x l] eqn:P; [discriminate |].
  destruct (dupes_of (targets (x :: l))); [| discriminate].
  destruct (filter (on_disk (listing w)) (targets (x :: l))); [| discriminate].
  destruct (negb apply); [discriminate |].
  destruct (failed (execute mover use_git (x :: l) w)) as [[? ?] |] eqn:F; [discriminate |].
  intro H. injection H as <- <-. split; [reflexivity |]. now apply execute_done.
Qed.

Lemma second_run (apply use_git apply' use_git' : bool) (w : World) ms r :
  main listing mover apply use_git w = (Done ms, r) ->
  main listing mover apply' use_git' (final r)
    = (NothingToRename, Executed (final r) [] None).
Proof.
  intro H. apply main_done_inv in H as [-> H].
  assert (E : plan_of listing (final r) = []).
  { apply nothing_selected. eapply all_moved_unselect; [exact H | |].
    - intros [src dst] Hr. apply plan_In in Hr as (e & parsed & _ & _ & _ & Hq & ->).
      simpl. now apply built_name_rejected with (name := src).
    - intros e He X. now apply selected_in_plan. }
  unfold main. cbv zeta. rewrite E. reflexivity.
Qed.

End SecondRun.

(** ** The tone of names that hold U+0130 or U+0131 *)

Lemma like_light_plain (g : pystr) :
  like "light" g -> ~ In U0130 g -> ~ In U0131 g -> lower_str g = str "light".
Proof.
  unfold like. cbn [list_ascii_of_string]. intros H N1 N2. like_inv H.
  unfold lower_str. cbn [flat_map].
  match goal with
  | Hi : lit_match true (L1 "i") ?c = true |- _ =>
      apply lit_among in Hi; vm_compute in Hi
  end.
  repeat match goal with
         | Hc : lit_match true (L1 _) _ = true |- _ =>
             apply lit_lower in Hc; [rewrite Hc; clear Hc | vm_compute; reflexivity]
         end.
  match goal with
  | Hi : _ \/ _ |- _ => destruct Hi as [<- | [<- | [<- | [<- | []]]]]
  end; try reflexivity; exfalso; [apply N1 | apply N2]; simpl; tauto.
Qed.

Lemma firstn_In (n : nat) (s : pystr) (c : char) : In c (firstn n s) -> In c s.
Proof.
  intro H. rewrite <- (firstn_skipn n s). apply in_or_app. now left.
Qed.

Lemma skipn_In (n : nat) (s : pystr) (c : char) : In c (skipn n s) -> In c s.
Proof.
  intro H. rewrite <- (firstn_skipn n s). apply in_or_app. now right.
Qed.

Lemma slice_In (s : pystr) (a b : nat) (c : char) : In c (slice s a b) -> In c s.
Proof. unfold slice. intro H. eapply skipn_In, firstn_In, H. Qed.

Lemma dropwhile_In (p : char -> bool) (s : pystr) (c : char) :
  In c (dropwhile p s) -> In c s.
Proof.
  induction s as [| x s IH]; simpl; [tauto |].
  destruct (p x); [| simpl]; tauto.
Qed.

Lemma strip_In (s : pystr) (c : char) : In c (strip s) -> In c s.
Proof.
  unfold strip. intro H. apply in_rev in H.
  apply dropwhile_In, in_rev in H. now apply dropwhile_In in H.
Qed.

Lemma sub_spaces_In (s : pystr) (c : char) : forall b,
  In c (sub_spaces b s) -> c = L1 " " \/ In c s.
Proof.
  induction s as [| x s IH]; intro b; simpl; [tauto |].
  destruct (is_space x); [destruct b |]; simpl; intro H;
    repeat match goal with
           | H : _ \/ _ |- _ => destruct H as [H | H]
           | H : In c (sub_spaces _ s) |- _ => apply IH in H
           end; auto.
Qed.

Lemma base_of_In (name : pystr) (c : char) :
  In c (base_of name) -> c = L1 " " \/ In c name.
Proof.
  unfold base_of, norm_spaces. intro H.
  apply strip_In, sub_spaces_In in H as [H | H]; [now left |].
  right. eapply firstn_In, H.
Qed.

Lemma group_In (s : pystr) (mo : mobj) (n : nat) (c : char) :
  In c (group s mo n) -> In c s.
Proof.
  unfold group. destruct (span_of n (m_groups mo)) as [[a b] |]; [| intros []].
  apply slice_In.
Qed.

(** On names that hold neither U+0130 nor U+0131 the tone is light or
    dark. *)
Lemma plain_tone (name : pystr) (d : descriptor) :
  ~ In U0130 name -> ~ In U0131 name ->
  parse_filename name = Some d -> tone d = str "light" \/ tone d = str "dark".
Proof.
  intros N1 N2 H.
  apply parse_inv in H as (m_tone & m_size & fam & _ & Ht & _ & _ & ->). simpl.
  apply tone_match in Ht as [_ [L | D]]; [left | right; now apply like_dark].
  apply like_light_plain; [exact L | |]; intro X;
    apply group_In, base_of_In in X as [X | X]; (discriminate X || auto).
Qed.

(** On such names the built name has the format of the tool's output,
    and is in lower case. *)
Lemma plain_wire_format (name : pystr) (d : descriptor) :
  ~ In U0130 name -> ~ In U0131 name ->
  parse_filename name = Some d ->
  wire_format (build_new_name d) /\ lower_str (build_new_name d) = build_new_name d.
Proof.
  intros N1 N2 H. pose proof (@plain_tone name d N1 N2 H) as T.
  apply parse_fields in H as (_ & Hf & (w & h & Hs & Hw & Hh) & Hv & _).
  split.
  - exists (family d), w, h, (variant d), (tone d).
    unfold build_new_name. rewrite Hs. split; [reflexivity |].
    cbn [In]. intuition (auto using eq_sym).
  - unfold build_new_name. rewrite Hs, !lower_str_app.
    rewrite (lower_digits (proj1 Hw)), (lower_digits (proj1 Hh)).
    destruct Hf as [-> | ->], Hv as [-> | [-> | ->]], T as [-> | ->]; reflexivity.
Qed.

(** No field of a parsed name is empty. *)
Lemma parse_fields_nonempty (name : pystr) (d : descriptor) :
  parse_filename name = Some d ->
  original d <> [] /\ family d <> [] /\ size d <> [] /\ variant d <> [] /\ tone d <> [].
Proof.
  intro H. pose proof (@parse_inv _ _ H) as (_ & _ & _ & P & _).
  apply parse_fields in H as (Ho & Hf & (w & h & Hs & Hw & Hh) & Hv & Ht).
  repeat split.
  - rewrite Ho. intros ->. vm_compute in P. discriminate P.
  - destruct Hf as [-> | ->]; discriminate.
  - rewrite Hs. destruct w; discriminate.
  - destruct Hv as [-> | [-> | ->]]; discriminate.
  - destruct Ht as [-> | [-> | [-> | ->]]]; discriminate.
Qed.

Lemma wire_format_l1 (t : pystr) : wire_format t -> forallb is_l1 t = true.
Proof.
  intros (fam & w & h & var & tn & -> & Hf & [Hw _] & [Hh _] & Hv & Ht).
  assert (D : forall u, Forall (fun c => is_digit c = true) u -> forallb is_l1 u = true).
  { intros u F. apply forallb_forall. rewrite Forall_forall in F.
    intros c Hc. apply F in Hc. now destruct c. }
  rewrite !forallb_app, (D _ Hw), (D _ Hh).
  simpl in Hf, Hv, Ht.
  destruct Hf as [<- | [<- | []]], Hv as [<- | [<- | [<- | []]]], Ht as [<- | [<- | []]];
    reflexivity.
Qed.

(** * The claims *)

(** C1: when two or more entries of the plan compute the same target name,
    the run ends with the collision report, which names every duplicated
    target (each once), and no move is made; in particular a directory that
    holds "CKT template 90x90 cropped light.png" and
    "CKT TEMPLATE 90X90 CROPPED LIGHT.png" ends that way, and
    "ckt-template-90x90-crop-light.png" is among the names reported. *)
Theorem collision_aborts_whole_run (World : Type) (listing : World -> directory)
    (mover : bool -> rename -> World -> move_result World)
    (apply use_git : bool) (w : World) :
  let ts := targets (plan_of listing w) in
  ((exists t, 1 < count t ts) ->
   exists dupes,
     main listing mover apply use_git w = (NameCollisions dupes, Executed w [] None) /\
     NoDup dupes /\ forall t, In t dupes <-> 1 < count t ts) /\
  (In (Entry (str "CKT template 90x90 cropped light.png") Regular) (listing w) ->
   In (Entry (str "CKT TEMPLATE 90X90 CROPPED LIGHT.png") Regular) (listing w) ->
   exists dupes,
     main listing mover apply use_git w = (NameCollisions dupes, Executed w [] None) /\
     In (str "ckt-template-90x90-crop-light.png") dupes).
Proof.
  intro ts.
  assert (G : (exists t, 1 < count t ts) ->
              exists dupes,
                main listing mover apply use_git w
                  = (NameCollisions dupes, Executed w [] None) /\
                NoDup dupes /\ forall t, In t dupes <-> 1 < count t ts).
  { intro H. exists (dupes_of ts). split; [now apply main_collision |].
    split; [apply dupes_of_NoDup | intro t; apply dupes_of_In]. }
  split; [exact G |].
  intros Ha Hb.
  assert (C : 1 < count (str "ckt-template-90x90-crop-light.png") ts).
  { apply count_two with (a := str "CKT template 90x90 cropped light.png")
                         (b := str "CKT TEMPLATE 90X90 CROPPED LIGHT.png").
    - intro E. apply str_eqb_eq in E. vm_compute in E. discriminate E.
    - apply plan_In. eexists. eexists. split; [exact Ha |].
      repeat split; vm_compute; reflexivity.
    - apply plan_In. eexists. eexists. split; [exact Hb |].
      repeat split; vm_compute; reflexivity. }
  destruct G as (dupes & M & _ & I).
  { exists (str "ckt-template-90x90-crop-light.png"). exact C. }
  exists dupes. split; [exact M | now apply I].
Qed.

Lemma collision_aborts_whole_run_witness :
  let d := [Entry (str "CKT template 90x90 cropped light.png") Regular;
            Entry (str "CKT TEMPLATE 90X90 CROPPED LIGHT.png") Regular] in
  exists dupes,
    dir_main true false d = (NameCollisions dupes, Executed d [] None) /\
    In (str "ckt-template-90x90-crop-light.png") dupes.
Proof.
  intro d.
  apply (proj2 (collision_aborts_whole_run (fun w => w) dir_mover true false d)).
  - simpl. tauto.
  - simpl. tauto.
Defined.




(** C3: [parse_filename] on the exact string
    "CKT template 90x90 cropped light.png" returns the descriptor with
    family template, size 90x90, variant crop and tone light, and
    [build_new_name] maps that descriptor to
    "ckt-template-90x90-crop-light.png". *)
Theorem end_to_end_example_1 :
  let parsed := Descriptor (str "CKT template 90x90 cropped light.png")
                  (str "template") (str "90x90") (str "crop") (str "light") in
  parse_filename (str "CKT template 90x90 cropped light.png") = Some parsed /\
  build_new_name parsed = str "ckt-template-90x90-crop-light.png".
Proof. split; vm_compute; reflexivity. Qed.

(** C4 fails on the code: U+0131 stands for the [i] of [light] as well and
    [lower()] leaves it as it is, so the target name built for the accepted
    name is not of the output format. *)
Theorem target_outside_wire_format :
  let name := str "CKT template 90x90 cropped l" ++ [U0131] ++ str "ght.png" in
  exists d, parse_filename name = Some d /\
            build_new_name d = str "ckt-template-90x90-crop-l" ++ [U0131] ++ str "ght.png" /\
            ~ wire_format (build_new_name d).
Proof.
  intro name. eexists. split; [vm_compute; reflexivity |].
  split; [vm_compute; reflexivity |].
  intro W. apply wire_format_l1 in W. vm_compute in W. discriminate W.
Qed.

(** C5: the name built for a parsed descriptor fails to parse or maps to
    itself (it always fails to parse), so a renamed file is not selected
    again: after a run that applied its plan, where each move renamed its
    source entry in the listing, a second run on the same directory finds
    nothing to rename. *)
Theorem second_run_renames_nothing (World : Type) (listing : World -> directory)
    (mover : bool -> rename -> World -> move_result World) :
  (forall name d, parse_filename name = Some d ->
     parse_filename (build_new_name d) = None \/
     exists d', parse_filename (build_new_name d) = Some d' /\
                build_new_name d' = build_new_name d) /\
  ((forall use_git r w w',
      mover use_git r w = Moved w' -> listing w' = rename_entry r (listing w)) ->
   forall use_git w ms r,
     main listing mover true use_git w = (Done ms, r) ->
     forall apply' use_git',
       main listing mover apply' use_git' (final r)
         = (NothingToRename, Executed (final r) [] None)).
Proof.
  split.
  - intros name d H. left. now apply built_name_rejected with (name := name).
  - intros Hm use_git w ms r H apply' use_git'.
    eapply second_run; eassumption.
Qed.

Lemma second_run_renames_nothing_witness :
  let d := [Entry (str "random_icon.png") Regular;
            Entry (str "b CKT template 90x90 cropped light.png") Regular;
            Entry (str "CKT template small close 60x50 dark.png") Regular] in
  let d' := [Entry (str "random_icon.png") Regular;
             Entry (str "ckt-template-90x90-crop-light.png") Regular;
             Entry (str "ckt-template-60x50-close-dark.png") Regular] in
  dir_main true false d' = (NothingToRename, Executed d' [] None).
Proof.
  intros d d'.
  apply (proj2 (second_run_renames_nothing (fun w => w) dir_mover)
           ltac:(intros g r w w'; unfold dir_mover;
                 destruct g, (listed w (fst r)), (listed w (snd r));
                 intro H; inversion H; reflexivity)
           false d
           [(str "CKT template small close 60x50 dark.png",
             str "ckt-template-60x50-close-dark.png");
            (str "b CKT template 90x90 cropped light.png",
             str "ckt-template-90x90-crop-light.png")]
           (Executed d'
              [(str "CKT template small close 60x50 dark.png",
                str "ckt-template-60x50-close-dark.png");
               (str "b CKT template 90x90 cropped light.png",
                str "ckt-template-90x90-crop-light.png")] None)
           ltac:(vm_compute; reflexivity) true false).
Defined.

(** A directory with two frames, on a machine without git and run with
    [--apply --use-git]: the first move raises, and the run ends with the
    proposal and the exception of [subprocess.run], which names the
    program it could not start and neither the source nor the target of the
    entry whose move failed.  The code prints nothing about that entry, so
    the failing entry is not reported. *)
Lemma failing_entry_not_reported :
  let d := [Entry (str "CKT template small close 60x50 dark.png") Regular;
            Entry (str "b CKT template 90x90 cropped light.png") Regular] in
  let r1 := (str "CKT template small close 60x50 dark.png",
             str "ckt-template-60x50-close-dark.png") in
  let r2 := (str "b CKT template 90x90 cropped light.png",
             str "ckt-template-90x90-crop-light.png") in
  let x := Exn "FileNotFoundError" [str "git"] in
  main (fun w => w) no_git_mover true true d
    = (MoveRaised [r1; r2] x, Executed d [r1] (Some (r1, x))) /\
  ~ names_entry (MoveRaised [r1; r2] x) r1.
Proof.
  intros d r1 r2 x. split; [vm_compute; reflexivity |].
  unfold names_entry, x. cbn [x_names In]. intros [[E | []] | [E | []]].
  - apply (f_equal (@length char)) in E. vm_compute in E. discriminate E.
  - apply (f_equal (@length char)) in E. vm_compute in E. discriminate E.
Qed.

(** C6, amended: the loop applies the entries in plan order with the move
    primitive it is given and stops at the first move that raises: the
    entries before it have been moved, it is the last move attempted, no
    later entry is attempted, and the world is left as the moves made it,
    nothing is undone.  What the run ends with is the exception of that
    move as the primitive raised it; the code adds nothing of its own about
    the failing entry.  [main] runs this loop on its plan once both checks
    have passed and [--apply] is given. *)
Theorem execute_stops_at_first_failure (World : Type) (listing : World -> directory)
    (mover : bool -> rename -> World -> move_result World)
    (use_git : bool) (pre : list rename) (e : rename) (post : list rename)
    (x : exn) (w w1 w2 : World) :
  all_moved mover use_git pre w = Some w1 ->
  mover use_git e w1 = Raised x w2 ->
  execute mover use_git (pre ++ e :: post) w
    = Executed w2 (pre ++ [e]) (Some (e, x)) /\
  (plan_of listing w = pre ++ e :: post ->
   dupes_of (targets (plan_of listing w)) = [] ->
   filter (on_disk (listing w)) (targets (plan_of listing w)) = [] ->
   main listing mover true use_git w
     = (MoveRaised (pre ++ e :: post) x, Executed w2 (pre ++ [e]) (Some (e, x)))).
Proof.
  intros H R.
  pose proof (execute_first_failure mover use_git pre e post _ H R) as X.
  split; [exact X |].
  intros P D F. unfold main. cbv zeta. rewrite D, F, P.
  remember (pre ++ e :: post) as pl eqn:E.
  destruct pl as [| y l]; [destruct pre; discriminate E |].
  simpl negb. cbv iota. rewrite X. reflexivity.
Qed.

Lemma execute_stops_at_first_failure_witness :
  let d := [Entry (str "CKT template small close 60x50 dark.png") Regular;
            Entry (str "b CKT template 90x90 cropped light.png") Regular;
            Entry (str "c CKT template 90x90 light.png") Regular] in
  let r1 := (str "CKT template small close 60x50 dark.png",
             str "ckt-template-60x50-close-dark.png") in
  let r2 := (str "b CKT template 90x90 cropped light.png",
             str "ckt-template-90x90-crop-light.png") in
  let r3 := (str "c CKT template 90x90 light.png",
             str "ckt-template-90x90-full-light.png") in
  let x := Exn "PermissionError" [fst r2; snd r2] in
  let mover := fun (use_git : bool) (r : rename) (w : directory) =>
                 if str_eqb (fst r) (fst r2) then Raised x w else dir_mover use_git r w in
  main (fun w => w) mover true false d
    = (MoveRaised [r1; r2; r3] x, Executed (rename_entry r1 d) [r1; r2] (Some (r2, x))).
Proof.
  intros d r1 r2 r3 x mover.
  apply (proj2 (@execute_stops_at_first_failure directory (fun w => w) mover false
                  [r1] r2 [r3] x d (rename_entry r1 d) (rename_entry r1 d)
                  ltac:(vm_compute; reflexivity) ltac:(vm_compute; reflexivity))).
  - vm_compute. reflexivity.
  - vm_compute. reflexivity.
  - vm_compute. reflexivity.
Defined.

(** C7: when the working string left after the extension and the tone are
    removed contains the whole word "cropped" and also the phrase
    "small close" or "small far", the parsed variant is crop: the test for
    "cropped" comes first and decides. *)
Theorem cropped_checked_first (name : pystr) (d : descriptor) (bwt : pystr) :
  parse_filename name = Some d ->
  base_wo_tone_of name = Some bwt ->
  contains_whole "cropped" bwt ->
  contains_whole "small close" bwt \/ contains_whole "small far" bwt ->
  variant d = str "crop".
Proof.
  intros H B C _. rewrite (parse_variant _ H B). now apply variant_cropped.
Qed.

Lemma cropped_checked_first_witness :
  variant (Descriptor (str "CKT template small close 90x90 cropped light.png")
             (str "template") (str "90x90") (str "crop") (str "light"))
  = str "crop".
Proof.
  apply (@cropped_checked_first
           (str "CKT template small close 90x90 cropped light.png") _
           (str "CKT template small close 90x90 cropped")).
  - vm_compute. reflexivity.
  - vm_compute. reflexivity.
  - apply whole_found. vm_compute. reflexivity.
  - left. apply whole_found. vm_compute. reflexivity.
Defined.

(** C8 fails on the code: [re.IGNORECASE] lets U+0130 stand for the [i] of
    [light], and [lower()] turns it into [i] followed by U+0307, so the tone
    of the descriptor is neither light nor dark. *)
Theorem tone_outside_domain :
  let name := str "CKT template 90x90 l" ++ [U0130] ++ str "ght.png" in
  exists d, parse_filename name = Some d /\
            tone d = [L1 "l"; L1 "i"; U0307; L1 "g"; L1 "h"; L1 "t"] /\
            ~ In (tone d) [str "light"; str "dark"].
Proof.
  intro name. eexists. split; [vm_compute; reflexivity |].
  split; [reflexivity |]. simpl. intros [E | [E | []]]; discriminate E.
Qed.

(** C9: the duplicate check comes before the check for targets that exist:
    when some target is duplicated and some target names an entry already
    on disk that is no source of the plan, the run ends with the collision
    report, which names duplicated targets only, and never with the report
    of existing targets. *)
Theorem collision_checked_before_exists (World : Type) (listing : World -> directory)
    (mover : bool -> rename -> World -> move_result World)
    (apply use_git : bool) (w : World) :
  let ms := plan_of listing w in
  (exists t, 1 < count t (targets ms)) ->
  (exists t, In t (targets ms) /\ on_disk (listing w) t = true /\ ~ In t (sources ms)) ->
  (exists dupes,
     main listing mover apply use_git w = (NameCollisions dupes, Executed w [] None) /\
     forall t, In t dupes -> 1 < count t (targets ms)) /\
  forall existing, fst (main listing mover apply use_git w) <> TargetsExist existing.
Proof.
  intros ms Hd _. rewrite (main_collision listing mover apply use_git w Hd).
  split; [| discriminate].
  eexists. split; [reflexivity |]. intro t. apply dupes_of_In.
Qed.

Lemma collision_checked_before_exists_witness :
  let d := [Entry (str "CKT template 90x90 cropped light.png") Regular;
            Entry (str "CKT TEMPLATE 90X90 CROPPED LIGHT.png") Regular;
            Entry (str "ckt-template-90x90-crop-light.png") Regular] in
  exists dupes,
    dir_main true false d = (NameCollisions dupes, Executed d [] None) /\
    forall t, In t dupes -> 1 < count t (targets (plan_of (fun w => w) d)).
Proof.
  intro d.
  apply (collision_checked_before_exists (fun w => w) dir_mover true false d).
  - exists (str "ckt-template-90x90-crop-light.png").
    apply Nat.ltb_lt. vm_compute. reflexivity.
  - exists (str "ckt-template-90x90-crop-light.png").
    split; [vm_compute; tauto |]. split; [vm_compute; reflexivity |].
    apply target_not_source. vm_compute. tauto.
Defined.

(** C10: the size pattern is not anchored at digit boundaries:
    "CKT template 12345x67 light.png", whose first dimension has five
    digits, is accepted, and its size is "2345x67", the leftmost substring
    that matches two to four digits, [x], two to four digits. *)
Theorem size_match_not_anchored :
  let name := str "CKT template 12345x67 light.png" in
  (exists d, parse_filename name = Some d /\ size d = str "2345x67") /\
  base_wo_tone_of name = Some (str "CKT template 12345x67") /\
  option_map (fun mo => (m_start mo, m_end mo))
    (re_search true (str "CKT template 12345x67") SIZE_RE) = Some (14, 21).
Proof.
  split; [| split; vm_compute; reflexivity].
  eexists. split; vm_compute; reflexivity.
Qed.

(** * Further properties of the code *)

(** ** The control flow of [main] *)

Lemma parse_needs_png (name : pystr) (d : descriptor) :
  parse_filename name = Some d -> found (re_search true name PNG_RE) = true.
Proof.
  intro H. apply parse_inv in H as (m_tone & m_size & fam & P & _). exact P.
Qed.

Lemma count_le_NoDup (l : list pystr) : (forall t, count t l <= 1) -> NoDup l.
Proof.
  induction l as [| x l IH]; intro H; constructor.
  - intro Hx. apply count_pos in Hx. specialize (H x).
    unfold count in *. simpl in H. rewrite str_eqb_refl in H. simpl in H. lia.
  - apply IH. intro t. specialize (H t). unfold count in *. simpl in H.
    destruct (str_eqb t x); simpl in H; lia.
Qed.

Lemma NoDup_count_le (l : list pystr) : NoDup l -> forall t, count t l <= 1.
Proof.
  induction 1 as [| x l Hx _ IH]; intro t; [unfold count; simpl; lia |].
  specialize (IH t). unfold count in *. simpl.
  destruct (str_eqb t x) eqn:E; [| exact IH].
  apply str_eqb_eq in E. subst t. simpl.
  destruct (filter (str_eqb x) l) as [| y f] eqn:F; [simpl; lia |].
  assert (X : In y (filter (str_eqb x) l)) by (rewrite F; now left).
  apply filter_In in X as [X1 X2]. apply str_eqb_eq in X2. subst y. contradiction.
Qed.

Lemma forall_filter_nil (A : Type) (p : A -> bool) (l : list A) :
  (forall x, In x l -> p x = false) -> filter p l = [].
Proof.
  induction l as [| y l IH]; intro H; simpl; [reflexivity |].
  rewrite (H y (or_introl eq_refl)). apply IH. intros x Hx. apply H. now right.
Qed.

Lemma filter_nil_forall (A : Type) (p : A -> bool) (l : list A) :
  filter p l = [] -> forall x, In x l -> p x = false.
Proof.
  intros H x Hx. destruct (p x) eqn:E; [| reflexivity].
  assert (X : In x (filter p l)) by (apply filter_In; now split).
  rewrite H in X. destruct X.
Qed.

Section MainFlow.

Variable World : Type.
Variable listing : World -> directory.
Variable mover : bool -> rename -> World -> move_result World.

Lemma execute_nil_attempted (use_git : bool) (ms : list rename) (w : World) :
  attempted (execute mover use_git ms w) = [] -> ms = [].
Proof.
  destruct ms as [| e ms]; [reflexivity |]. simpl.
  destruct (mover use_git e w); simpl; discriminate.
Qed.

Lemma main_moves_inv (apply use_git : bool) (w : World) :
  attempted (snd (main listing mover apply use_git w)) <> [] ->
  apply = true /\
  plan_of listing w <> [] /\
  dupes_of (targets (plan_of listing w)) = [] /\
  filter (on_disk (listing w)) (targets (plan_of listing w)) = [] /\
  snd (main listing mover apply use_git w)
    = execute mover use_git (plan_of listing w) w.
Proof.
  unfold main. cbv zeta.
  destruct (plan_of listing w) as [| x l] eqn:P; [simpl; congruence |].
  destruct (dupes_of (targets (x :: l))) eqn:D; [| simpl; congruence].
  destruct (filter (on_disk (listing w)) (targets (x :: l))) eqn:F; [| simpl; congruence].
  destruct apply; [| simpl; congruence].
  simpl negb. cbv iota. intros _.
  repeat split; try discriminate.
  destruct (failed (execute mover use_git (x :: l) w)) as [[? ?] |]; reflexivity.
Qed.

Lemma execute_prefix (use_git : bool) (ms : list rename) : forall w,
  exists rest,
    ms = attempted (execute mover use_git ms w) ++ rest /\
    (failed (execute mover use_git ms w) = None -> rest = []) /\
    (forall e x, failed (execute mover use_git ms w) = Some (e, x) ->
       exists pre, attempted (execute mover use_git ms w) = pre ++ [e]).
Proof.
  induction ms as [| y ms IH]; intro w; simpl.
  - exists []. repeat split; [intros e x H; discriminate H].
  - destruct (mover use_git y w) as [w' | x' w'] eqn:M; simpl.
    + destruct (IH w') as (rest & E & N & S). exists rest. repeat split.
      * now rewrite <- E.
      * exact N.
      * intros e x H. destruct (S e x H) as (pre & Hp). exists (y :: pre).
        now rewrite Hp.
    + exists ms. repeat split; [discriminate |].
      intros e x H. injection H as <- _. now exists [].
Qed.

End MainFlow.

(** X1: without [--apply] no move is attempted and the world stays as it
    was, whatever the directory holds and whichever report is printed. *)
Theorem dry_run_moves_nothing (World : Type) (listing : World -> directory)
    (mover : bool -> rename -> World -> move_result World)
    (use_git : bool) (w : World) :
  snd (main listing mover false use_git w) = Executed w [] None.
Proof.
  unfold main. cbv zeta.
  destruct (plan_of listing w) as [| x l]; [reflexivity |].
  destruct (dupes_of (targets (x :: l))); [| reflexivity].
  destruct (filter (on_disk (listing w)) (targets (x :: l))); reflexivity.
Qed.

(** X2: a move is attempted only when [--apply] is given, the plan is not
    empty, no two entries of the plan share a target and no target exists
    in the directory; the moves are then those of the loop over the plan.
    A target that is listed as a symbolic link to a missing file does not
    exist and does not stop the run. *)
Theorem moves_only_after_validation (World : Type) (listing : World -> directory)
    (mover : bool -> rename -> World -> move_result World)
    (apply use_git : bool) (w : World) :
  attempted (snd (main listing mover apply use_git w)) <> [] ->
  apply = true /\
  plan_of listing w <> [] /\
  NoDup (targets (plan_of listing w)) /\
  (forall t, In t (targets (plan_of listing w)) -> on_disk (listing w) t = false) /\
  snd (main listing mover apply use_git w)
    = execute mover use_git (plan_of listing w) w.
Proof.
  intro H. apply main_moves_inv in H as (A & P & D & F & E).
  repeat split; try assumption.
  - apply count_le_NoDup. now apply dupes_of_nil.
  - now apply filter_nil_forall.
Qed.

Lemma moves_only_after_validation_witness :
  let d := [Entry (str "CKT template small close 60x50 dark.png") Regular;
            Entry (str "b CKT template 90x90 cropped light.png") Regular;
            Entry (str "ckt-template-60x50-close-dark.png") Broken;
            Entry (str "notes.txt") Regular] in
  NoDup [str "ckt-template-60x50-close-dark.png";
         str "ckt-template-90x90-crop-light.png"] /\
  on_disk d (str "ckt-template-60x50-close-dark.png") = false /\
  listed d (str "ckt-template-60x50-close-dark.png") = true /\
  snd (dir_main true false d)
  = Executed [Entry (str "ckt-template-60x50-close-dark.png") Regular;
              Entry (str "ckt-template-90x90-crop-light.png") Regular;
              Entry (str "notes.txt") Regular]
             [(str "CKT template small close 60x50 dark.png",
               str "ckt-template-60x50-close-dark.png");
              (str "b CKT template 90x90 cropped light.png",
               str "ckt-template-90x90-crop-light.png")] None.
Proof.
  intro d.
  destruct (@moves_only_after_validation directory (fun w => w) dir_mover true false d
              ltac:(vm_compute; discriminate)) as (_ & _ & N & F & E).
  split; [exact N |]. split; [apply F; vm_compute; tauto |].
  split; [reflexivity |]. unfold dir_main. rewrite E. vm_compute. reflexivity.
Defined.

(** X3: the loop over the plan attempts a prefix of the plan, in plan
    order: the whole plan when no move raises, and otherwise the entries up
    to and including the one whose move raised. *)
Theorem execute_attempts_prefix (World : Type)
    (mover : bool -> rename -> World -> move_result World)
    (use_git : bool) (plan : list rename) (w : World) :
  let r := execute mover use_git plan w in
  exists rest,
    plan = attempted r ++ rest /\
    (failed r = None -> attempted r = plan) /\
    (forall e x, failed r = Some (e, x) -> exists pre, attempted r = pre ++ [e]).
Proof.
  intro r. destruct (execute_prefix mover use_git plan w) as (rest & E & N & S).
  exists rest. repeat split; [exact E | | exact S].
  intro H. fold r in E. rewrite (N H), app_nil_r in E. now symmetry.
Qed.

Lemma execute_failed_none (World : Type)
    (mover : bool -> rename -> World -> move_result World)
    (use_git : bool) (ms : list rename) : forall w w1,
  all_moved mover use_git ms w = Some w1 <->
  execute mover use_git ms w = Executed w1 ms None.
Proof.
  induction ms as [| e ms IH]; intros w w1; simpl.
  - split; intro H; injection H as <-; reflexivity.
  - destruct (mover use_git e w) as [w' | x' w'].
    + rewrite IH. split; intro H.
      * rewrite H. reflexivity.
      * destruct (execute mover use_git ms w') as [f a o]. simpl in H.
        injection H as -> -> ->. reflexivity.
    + split; intro H; discriminate H.
Qed.

(** X4: the run reports "Done." exactly when [--apply] is given, the plan
    is not empty, no two of its entries share a target, no target exists in
    the directory, and every move of the plan returns; the moves made are
    then the whole plan, in plan order, and the world is the one the last
    move left. *)
Theorem done_exactly_when_all_moved (World : Type) (listing : World -> directory)
    (mover : bool -> rename -> World -> move_result World)
    (apply use_git : bool) (w : World) (ms : list rename) (r : executed World) :
  main listing mover apply use_git w = (Done ms, r) <->
  apply = true /\ ms = plan_of listing w /\ ms <> [] /\
  NoDup (targets ms) /\
  (forall t, In t (targets ms) -> on_disk (listing w) t = false) /\
  all_moved mover use_git ms w = Some (final r) /\
  r = Executed (final r) ms None.
Proof.
  unfold main. cbv zeta. split.
  - destruct (plan_of listing w) as [| x l] eqn:P; [discriminate |].
    destruct (dupes_of (targets (x :: l))) eqn:D; [| discriminate].
    destruct (filter (on_disk (listing w)) (targets (x :: l))) eqn:F; [| discriminate].
    destruct apply; [| discriminate]. simpl negb. cbv iota.
    destruct (execute mover use_git (x :: l) w) as [f a o] eqn:X.
    simpl failed. destruct o as [[? ?] |]; [discriminate |].
    pose proof (execute_prefix mover use_git (x :: l) w) as (rest & E & N & _).
    rewrite X in E, N. simpl in E, N. rewrite (N eq_refl), app_nil_r in E. subst a.
    intro H. injection H as <- <-. cbn [final].
    repeat split; try assumption; try discriminate.
    + apply count_le_NoDup. now apply dupes_of_nil.
    + now apply filter_nil_forall.
    + apply execute_failed_none. exact X.
  - intros (-> & -> & Hne & D & F & A & R).
    destruct (plan_of listing w) as [| x l] eqn:P; [contradiction |].
    rewrite (proj2 (dupes_of_nil _) (NoDup_count_le D)), (forall_filter_nil _ _ F).
    simpl negb. cbv iota.
    apply execute_failed_none in A. rewrite A. simpl. now rewrite R at 2.
Qed.

(** X5: the plan holds the pair of a name and a target exactly when the
    directory lists a file of that name, the name parses, and the target is
    the name built for it: entries that are not files are never renamed, and
    every file whose name parses is. *)
Theorem plan_entries (World : Type) (listing : World -> directory)
    (w : World) (src dst : pystr) :
  In (src, dst) (plan_of listing w) <->
  In (Entry src Regular) (listing w) /\
  exists parsed, parse_filename src = Some parsed /\ dst = build_new_name parsed.
Proof.
  unfold plan_of. rewrite plan_In. split.
  - intros ([n f] & parsed & He & Hp & Hn & Hq & Hd). simpl in Hn. subst n.
    unfold is_png, e_is_file in Hp. simpl in Hp.
      destruct f; try discriminate Hp.
    split; [exact He | now exists parsed].
  - intros (He & parsed & Hq & Hd). exists (Entry src Regular), parsed.
    repeat split; try assumption.
    unfold is_png. simpl. now apply parse_needs_png with (d := parsed).
Qed.

(** X6: the run reports that there is nothing to rename exactly when no
    file of the directory has a name that parses. *)
Theorem nothing_to_rename_exactly (World : Type) (listing : World -> directory)
    (mover : bool -> rename -> World -> move_result World)
    (apply use_git : bool) (w : World) :
  fst (main listing mover apply use_git w) = NothingToRename <->
  forall name, In (Entry name Regular) (listing w) -> parse_filename name = None.
Proof.
  assert (E : plan_of listing w = [] <->
              forall name, In (Entry name Regular) (listing w) -> parse_filename name = None).
  { unfold plan_of. split.
    - intros P name He. destruct (parse_filename name) as [parsed |] eqn:Q; [| reflexivity].
      assert (X : In (name, build_new_name parsed) (mappings_of (pngs (listing w)))).
      { apply plan_In. exists (Entry name Regular), parsed. repeat split; try assumption.
        unfold is_png. simpl. now apply parse_needs_png with (d := parsed). }
      rewrite P in X. destruct X.
    - intro H. destruct (mappings_of (pngs (listing w))) as [| [src dst] l] eqn:P;
        [reflexivity |].
      assert (X : In (src, dst) (mappings_of (pngs (listing w)))) by (rewrite P; now left).
      apply plan_In in X as ([n f] & parsed & He & Hp & Hn & Q & _).
      simpl in Hn. subst n. unfold is_png, e_is_file in Hp. simpl in Hp.
      destruct f; try discriminate Hp.
      rewrite (H src He) in Q. discriminate Q. }
  rewrite <- E. unfold main. cbv zeta.
  destruct (plan_of listing w) as [| x l]; [simpl; tauto |].
  split; [| discriminate].
  destruct (dupes_of (targets (x :: l))); [| discriminate].
  destruct (filter (on_disk (listing w)) (targets (x :: l))); [| discriminate].
  destruct (negb apply); [discriminate |].
  destruct (failed (execute mover use_git (x :: l) w)) as [[? ?] |]; discriminate.
Qed.

(** ** The order of the plan *)

Lemma str_leb_refl (a : pystr) : str_leb a a = true.
Proof.
  induction a as [| c a IH]; simpl; [reflexivity |].
  now rewrite N.ltb_irrefl.
Qed.

Lemma str_leb_total (a b : pystr) : str_leb a b = true \/ str_leb b a = true.
Proof.
  revert b. induction a as [| c a IH]; intros [| d b]; simpl; auto.
  destruct (N.ltb (code c) (code d)) eqn:E1; [now left |].
  destruct (N.ltb (code d) (code c)) eqn:E2; [now right |].
  apply IH.
Qed.

Lemma str_leb_trans (a b c : pystr) :
  str_leb a b = true -> str_leb b c = true -> str_leb a c = true.
Proof.
  revert b c. induction a as [| x a IH]; intros [| y b] [| z c]; simpl;
    try reflexivity; try discriminate.
  destruct (N.ltb (code x) (code y)) eqn:E1, (N.ltb (code y) (code x)) eqn:E2,
           (N.ltb (code y) (code z)) eqn:E3, (N.ltb (code z) (code y)) eqn:E4,
           (N.ltb (code x) (code z)) eqn:E5, (N.ltb (code z) (code x)) eqn:E6;
    try reflexivity; try discriminate;
    rewrite ?N.ltb_lt, ?N.ltb_ge in *; try lia.
  apply IH.
Qed.

Lemma str_leb_antisym (a b : pystr) :
  str_leb a b = true -> str_leb b a = true -> a = b.
Proof.
  revert b. induction a as [| x a IH]; intros [| y b]; simpl;
    try reflexivity; try discriminate.
  destruct (N.ltb (code x) (code y)) eqn:E1, (N.ltb (code y) (code x)) eqn:E2;
    try discriminate; rewrite ?N.ltb_lt, ?N.ltb_ge in *; try lia.
  intros H1 H2. f_equal; [| now apply IH].
  apply eqb_eq. unfold eqb. apply N.eqb_eq. lia.
Qed.

Section SortedOrder.

Variable A : Type.
Variable key : A -> pystr.

Local Abbreviation by_key := (fun x y : A => str_le (key x) (key y)).

Lemma insert_sorted_ordered (x : A) (l : list A) :
  StronglySorted by_key l -> StronglySorted by_key (insert_sorted key x l).
Proof.
  induction 1 as [| y l S IH F]; simpl.
  - constructor; constructor.
  - destruct (str_leb (key x) (key y)) eqn:E.
    + constructor; [now constructor |]. constructor; [exact E |].
      eapply Forall_impl; [| exact F]. intros z Hz.
      eapply str_leb_trans; [exact E | exact Hz].
    + constructor; [exact IH |].
      eapply Permutation_Forall; [symmetry; apply insert_sorted_perm |].
      constructor; [| exact F].
      destruct (str_leb_total (key x) (key y)) as [T | T]; [congruence | exact T].
Qed.

Lemma sorted_ordered (l : list A) : StronglySorted by_key (sorted key l).
Proof.
  induction l as [| x l IH]; simpl; [constructor |].
  now apply insert_sorted_ordered.
Qed.

Lemma same_key_same (l : list A) (x y : A) :
  NoDup (map key l) -> In x l -> In y l -> key x = key y -> x = y.
Proof.
  induction l as [| z l IH]; simpl; [tauto |].
  intros N Hx Hy E. inversion N as [| ? ? Nz Nl]; subst.
  destruct Hx as [-> | Hx], Hy as [-> | Hy]; try reflexivity.
  - exfalso. apply Nz. rewrite E. now apply in_map.
  - exfalso. apply Nz. rewrite <- E. now apply in_map.
  - now apply IH.
Qed.

Lemma ordered_unique (l : list A) : forall l',
  Permutation l l' -> StronglySorted by_key l -> StronglySorted by_key l' ->
  NoDup (map key l) -> l = l'.
Proof.
  induction l as [| x l IH]; intros l' P S S' N.
  - apply Permutation_nil in P. now subst.
  - destruct l' as [| y l'];
      [apply Permutation_sym, Permutation_nil in P; discriminate P |].
    inversion S as [| ? ? Sl Fl]; subst. inversion S' as [| ? ? Sl' Fl']; subst.
    assert (E : x = y).
    { assert (Hx : In x (y :: l')) by (eapply Permutation_in; [exact P | now left]).
      assert (Hy : In y (x :: l))
        by (eapply Permutation_in; [symmetry; exact P | now left]).
      apply (@same_key_same (x :: l)); [exact N | now left | exact Hy |].
      apply str_leb_antisym.
      - destruct Hy as [-> | Hy]; [apply str_leb_refl |].
        rewrite Forall_forall in Fl. now apply Fl.
      - destruct Hx as [-> | Hx]; [apply str_leb_refl |].
        rewrite Forall_forall in Fl'. now apply Fl'. }
    subst y. f_equal. apply IH; try assumption.
    + eapply Permutation_cons_inv. exact P.
    + simpl in N. now inversion N.
Qed.

End SortedOrder.

Lemma filter_perm (A : Type) (p : A -> bool) (l l' : list A) :
  Permutation l l' -> Permutation (filter p l) (filter p l').
Proof.
  induction 1 as [| x l l' P IH | x y l | l l' l'' P1 IH1 P2 IH2]; simpl.
  - constructor.
  - destruct (p x); [now constructor | exact IH].
  - destruct (p x), (p y); try reflexivity. apply perm_swap.
  - now transitivity (filter p l').
Qed.

Lemma filter_names_NoDup (p : entry -> bool) (l : directory) :
  NoDup (map e_name l) -> NoDup (map e_name (filter p l)).
Proof.
  induction l as [| e l IH]; simpl; intro N; [constructor |].
  inversion N as [| ? ? Ne Nl]; subst.
  destruct (p e); simpl; [| now apply IH].
  constructor; [| now apply IH].
  intro H. apply Ne. apply in_map_iff in H as (e' & E & H).
  apply filter_In in H as [H _]. rewrite <- E. now apply in_map.
Qed.

Lemma mappings_sources (ps : list entry) (src : pystr) :
  In src (sources (mappings_of ps)) -> exists e, In e ps /\ e_name e = src.
Proof.
  unfold sources. intro H. apply in_map_iff in H as ([s d] & E & H). simpl in E. subst s.
  apply mappings_of_In in H as (e & parsed & He & Hn & _). now exists e.
Qed.

Lemma mappings_ordered (ps : list entry) :
  StronglySorted (fun x y => str_le (e_name x) (e_name y)) ps ->
  StronglySorted str_le (sources (mappings_of ps)).
Proof.
  induction 1 as [| p ps S IH F]; [constructor |].
  cbn [mappings_of].
  destruct (parse_filename (e_name p)) as [parsed |]; [| exact IH].
  cbv zeta. destruct (str_eqb (build_new_name parsed) (e_name p)); [exact IH |].
  constructor; [exact IH |].
  apply Forall_forall. intros src Hs.
  apply mappings_sources in Hs as (e & He & <-).
  rewrite Forall_forall in F. now apply F.
Qed.

(** X7: the plan is in the order of its source names, by code points, so
    the renames are proposed and made in that order. *)
Theorem plan_in_source_order (World : Type) (listing : World -> directory) (w : World) :
  StronglySorted str_le (sources (plan_of listing w)).
Proof.
  unfold plan_of, pngs. apply mappings_ordered. apply sorted_ordered.
Qed.

(** X8: the plan does not depend on the order in which the directory is
    listed: two listings of the same entries, with no name listed twice,
    give the same plan. *)
Theorem plan_ignores_listing_order (World : Type) (listing : World -> directory)
    (w w' : World) :
  Permutation (listing w) (listing w') ->
  NoDup (map e_name (listing w)) ->
  plan_of listing w = plan_of listing w'.
Proof.
  intros P N. unfold plan_of, pngs. f_equal.
  apply ordered_unique with (key := e_name).
  - rewrite !sorted_perm. now apply filter_perm.
  - apply sorted_ordered.
  - apply sorted_ordered.
  - eapply Permutation_NoDup;
      [apply Permutation_map; symmetry; apply sorted_perm |].
    now apply filter_names_NoDup.
Qed.

Lemma plan_ignores_listing_order_witness :
  plan_of (fun w => w)
    [Entry (str "b CKT template 90x90 cropped light.png") Regular;
     Entry (str "CKT template small close 60x50 dark.png") Regular]
  = plan_of (fun w => w)
      [Entry (str "CKT template small close 60x50 dark.png") Regular;
       Entry (str "b CKT template 90x90 cropped light.png") Regular].
Proof.
  apply (@plan_ignores_listing_order directory (fun w => w)).
  - apply perm_swap.
  - apply NoDup_cons; [simpl; intros [E | []]; discriminate E |].
    apply NoDup_cons; [simpl; tauto | constructor].
Defined.

Lemma ordered_strict (l : list pystr) :
  StronglySorted str_le l -> NoDup l -> StronglySorted str_lt l.
Proof.
  induction 1 as [| x l S IH F]; intro N; [constructor |].
  inversion N as [| ? ? Nx Nl]; subst. constructor; [now apply IH |].
  rewrite Forall_forall in *. intros y Hy. split; [now apply F |].
  intros ->. contradiction.
Qed.

(** X9: the collision report is never empty and lists the duplicated
    targets in increasing order of code points, each once. *)
Theorem collision_report_sorted (World : Type) (listing : World -> directory)
    (mover : bool -> rename -> World -> move_result World)
    (apply use_git : bool) (w : World) (dupes : list pystr) :
  fst (main listing mover apply use_git w) = NameCollisions dupes ->
  dupes <> [] /\ StronglySorted str_lt dupes.
Proof.
  unfold main. cbv zeta.
  destruct (plan_of listing w) as [| x l]; [discriminate |].
  destruct (dupes_of (targets (x :: l))) as [| t ts] eqn:D.
  - destruct (filter (on_disk (listing w)) (targets (x :: l))); [| discriminate].
    destruct (negb apply); [discriminate |].
    destruct (failed (execute mover use_git (x :: l) w)) as [[? ?] |]; discriminate.
  - simpl. intro H. injection H as <-. split; [discriminate |].
    rewrite <- D. apply ordered_strict; [| apply dupes_of_NoDup].
    unfold dupes_of. apply (@sorted_ordered pystr (fun t => t)).
Qed.

Lemma collision_report_sorted_witness :
  StronglySorted str_lt [str "ckt-template-90x90-crop-light.png"].
Proof.
  apply (@collision_report_sorted directory (fun w => w) dir_mover true false
           [Entry (str "CKT template 90x90 cropped light.png") Regular;
            Entry (str "CKT TEMPLATE 90X90 CROPPED LIGHT.png") Regular]).
  vm_compute. reflexivity.
Defined.

(** ** [norm_spaces] *)

Lemma sub_spaces_single (s : pystr) : forall b,
  single_spaced b (sub_spaces b s) = true.
Proof.
  induction s as [| c s IH]; intro b; simpl; [reflexivity |].
  destruct (is_space c) eqn:E.
  - destruct b; [apply IH |]. simpl. now rewrite IH.
  - simpl. rewrite E. apply IH.
Qed.

Lemma single_spaced_weaken (s : pystr) :
  single_spaced true s = true -> single_spaced false s = true.
Proof.
  destruct s as [| c s]; simpl; [reflexivity |].
  destruct (is_space c); [| tauto].
  rewrite andb_false_r. discriminate.
Qed.

Lemma single_spaced_lstrip (s : pystr) :
  single_spaced true s = true -> dropwhile is_space s = s.
Proof.
  destruct s as [| c s]; simpl; [reflexivity |].
  destruct (is_space c); [| reflexivity].
  rewrite andb_false_r. discriminate.
Qed.

Lemma lstrip_single (s : pystr) :
  single_spaced false s = true -> single_spaced true (dropwhile is_space s) = true.
Proof.
  destruct s as [| c s]; simpl; [reflexivity |].
  destruct (is_space c) eqn:E; simpl.
  - intro H. apply andb_true_iff in H as [_ H].
    now rewrite (single_spaced_lstrip _ H).
  - now rewrite E.
Qed.

Lemma dropwhile_snoc (p : char -> bool) (l : pystr) (c : char) :
  dropwhile p (l ++ [c]) =
  match dropwhile p l with
  | [] => if p c then [] else [c]
  | x :: r => (x :: r) ++ [c]
  end.
Proof.
  induction l as [| y l IH]; simpl; [reflexivity |].
  destruct (p y); [exact IH | reflexivity].
Qed.

(** [s.rstrip()], as [strip] applies it. *)
Lemma rstrip_cons (c : char) (t : pystr) :
  rev (dropwhile is_space (rev (c :: t))) =
  match rev (dropwhile is_space (rev t)) with
  | [] => if is_space c then [] else [c]
  | x :: r => c :: x :: r
  end.
Proof.
  simpl rev at 2. rewrite dropwhile_snoc.
  destruct (dropwhile is_space (rev t)) as [| x r] eqn:E.
  - simpl. now destruct (is_space c).
  - rewrite rev_app_distr. simpl rev at 1. cbn [app].
    destruct (rev (x :: r)) as [| y r'] eqn:R; [| reflexivity].
    apply (f_equal (@length char)) in R. rewrite length_rev in R. discriminate R.
Qed.

Lemma rstrip_nil (t : pystr) :
  rev (dropwhile is_space (rev t)) = [] -> Forall (fun c => is_space c = true) t.
Proof.
  induction t as [| c t IH]; [constructor |].
  rewrite rstrip_cons.
  destruct (rev (dropwhile is_space (rev t))) as [| x r]; [| discriminate].
  destruct (is_space c) eqn:E; [| discriminate].
  intros _. constructor; [exact E | now apply IH].
Qed.

Lemma rstrip_head (t : pystr) (x : char) (r : pystr) :
  rev (dropwhile is_space (rev t)) = x :: r -> exists t', t = x :: t'.
Proof.
  destruct t as [| c t]; [discriminate |].
  rewrite rstrip_cons.
  destruct (rev (dropwhile is_space (rev t))) as [| y r'].
  - destruct (is_space c); [discriminate |]. intro H. injection H as <- _. now exists t.
  - intro H. injection H as <- _. now exists t.
Qed.

Lemma rstrip_single (t : pystr) : forall b,
  single_spaced b t = true ->
  single_spaced b (rev (dropwhile is_space (rev t))) = true.
Proof.
  induction t as [| c t IH]; intros b H; [reflexivity |].
  rewrite rstrip_cons. simpl in H.
  destruct (rev (dropwhile is_space (rev t))) as [| x r] eqn:R.
  - destruct (is_space c) eqn:E; [reflexivity |]. simpl. now rewrite E.
  - change (single_spaced b (c :: x :: r))
      with (if is_space c
            then eqb c (L1 " ") && negb b && single_spaced true (x :: r)
            else single_spaced false (x :: r)).
    destruct (is_space c) eqn:E.
    + apply andb_true_iff in H as [H1 H2]. rewrite H1.
      exact (IH true H2).
    + exact (IH false H).
Qed.

Lemma dropwhile_twice (p : char -> bool) (l : pystr) :
  dropwhile p (dropwhile p l) = dropwhile p l.
Proof.
  induction l as [| c l IH]; simpl; [reflexivity |].
  destruct (p c) eqn:E; [exact IH |]. simpl. now rewrite E.
Qed.

Lemma rstrip_twice (t : pystr) :
  rev (dropwhile is_space (rev (rev (dropwhile is_space (rev t)))))
  = rev (dropwhile is_space (rev t)).
Proof. now rewrite rev_involutive, dropwhile_twice. Qed.

Lemma single_spaced_fixed (u : pystr) : forall b,
  single_spaced b u = true -> sub_spaces b u = u.
Proof.
  induction u as [| c u IH]; intros b H; simpl in *; [reflexivity |].
  destruct (is_space c) eqn:E.
  - apply andb_true_iff in H as [H1 H2]. apply andb_true_iff in H1 as [H0 H1].
    apply eqb_eq in H0. destruct b; [discriminate H1 |].
    rewrite (IH true H2). now subst c.
  - now rewrite (IH false H).
Qed.

Lemma norm_spaces_single (s : pystr) :
  single_spaced true (norm_spaces s) = true /\
  rev (dropwhile is_space (rev (norm_spaces s))) = norm_spaces s.
Proof.
  unfold norm_spaces, strip. split.
  - apply rstrip_single, lstrip_single, sub_spaces_single.
  - apply rstrip_twice.
Qed.

Lemma norm_spaces_fixed (u : pystr) :
  single_spaced true u = true -> rev (dropwhile is_space (rev u)) = u ->
  norm_spaces u = u.
Proof.
  intros H R. unfold norm_spaces, strip.
  rewrite (single_spaced_fixed _ _ (single_spaced_weaken _ H)).
  rewrite (single_spaced_lstrip _ H). exact R.
Qed.

(** X10: [norm_spaces] is idempotent: a normalised string is left as it
    is. *)
Theorem norm_spaces_idempotent (s : pystr) :
  norm_spaces (norm_spaces s) = norm_spaces s.
Proof.
  destruct (norm_spaces_single s) as [H R]. now apply norm_spaces_fixed.
Qed.

Lemma single_spaced_spaces (u : pystr) : forall b,
  single_spaced b u = true ->
  forall c, In c u -> is_space c = true -> c = L1 " ".
Proof.
  induction u as [| x u IH]; intros b H c Hc Sc; [destruct Hc |].
  simpl in H. destruct (is_space x) eqn:E.
  - apply andb_true_iff in H as [H1 H2]. apply andb_true_iff in H1 as [H0 _].
    destruct Hc as [<- | Hc]; [now apply eqb_eq | now apply (IH true)].
  - destruct Hc as [<- | Hc]; [congruence | now apply (IH false)].
Qed.

Lemma single_spaced_adjacent (l1 : pystr) (c d : char) (l2 : pystr) : forall b,
  single_spaced b (l1 ++ c :: d :: l2) = true ->
  is_space c = true -> is_space d = false.
Proof.
  induction l1 as [| x l1 IH]; intros b H Sc.
  - destruct (is_space d) eqn:Sd; [| reflexivity].
    simpl in H. rewrite Sc, Sd in H.
    apply andb_true_iff in H as [_ H]. apply andb_true_iff in H as [H _].
    apply andb_true_iff in H as [_ H]. discriminate H.
  - simpl in H. destruct (is_space x).
    + apply andb_true_iff in H as [_ H]. now apply (IH true).
    + now apply (IH false).
Qed.

Lemma dropwhile_length (p : char -> bool) (l : pystr) :
  length (dropwhile p l) <= length l.
Proof.
  induction l as [| c l IH]; simpl; [lia |].
  destruct (p c); simpl; lia.
Qed.

Lemma rstrip_last (t : pystr) (c : char) :
  rev (dropwhile is_space (rev (t ++ [c]))) = t ++ [c] -> is_space c = false.
Proof.
  intro H. destruct (is_space c) eqn:E; [| reflexivity].
  apply (f_equal (@length char)) in H.
  rewrite length_rev, rev_app_distr in H. simpl in H. rewrite E in H.
  pose proof (dropwhile_length is_space (rev t)) as L.
  rewrite length_rev in L. rewrite length_app in H. simpl in H. lia.
Qed.

Lemma filter_rev_chars (p : char -> bool) (l : pystr) :
  filter p (rev l) = rev (filter p l).
Proof.
  induction l as [| c l IH]; simpl; [reflexivity |].
  rewrite filter_app, IH. simpl. destruct (p c); simpl; [reflexivity |].
  apply app_nil_r.
Qed.

Lemma dropwhile_keeps (l : pystr) :
  filter (fun c => negb (is_space c)) (dropwhile is_space l)
  = filter (fun c => negb (is_space c)) l.
Proof.
  induction l as [| c l IH]; simpl; [reflexivity |].
  destruct (is_space c) eqn:E; simpl; [exact IH |]. now rewrite E.
Qed.

Lemma sub_spaces_keeps (s : pystr) : forall b,
  filter (fun c => negb (is_space c)) (sub_spaces b s)
  = filter (fun c => negb (is_space c)) s.
Proof.
  induction s as [| c s IH]; intro b; simpl; [reflexivity |].
  destruct (is_space c) eqn:E; simpl.
  - destruct b; simpl; apply IH.
  - rewrite E. simpl. now rewrite IH.
Qed.

(** X11: in a normalised string every whitespace character is a single
    U+0020 that stands between two characters that are not whitespace, and
    the characters that are not whitespace are those of the input, in the
    same order. *)
Theorem norm_spaces_shape (s : pystr) :
  let u := norm_spaces s in
  (forall c, In c u -> is_space c = true -> c = L1 " ") /\
  (forall l1 c d l2, u = l1 ++ c :: d :: l2 -> is_space c = true -> is_space d = false) /\
  (forall c t, u = c :: t -> is_space c = false) /\
  (forall t c, u = t ++ [c] -> is_space c = false) /\
  filter (fun c => negb (is_space c)) u = filter (fun c => negb (is_space c)) s.
Proof.
  intro u. destruct (norm_spaces_single s) as [H R]. fold u in H, R.
  split; [| split; [| split; [| split]]].
  - now apply single_spaced_spaces with (b := true).
  - intros l1 c d l2 E. rewrite E in H. now apply single_spaced_adjacent with (b := true) (l1 := l1) (l2 := l2).
  - intros c t E. rewrite E in H. simpl in H.
    destruct (is_space c); [| reflexivity].
    rewrite andb_false_r in H. discriminate H.
  - intros t c E. rewrite E in R. now apply rstrip_last with (t := t).
  - unfold u, norm_spaces, strip.
    rewrite filter_rev_chars, dropwhile_keeps, filter_rev_chars, rev_involutive.
    rewrite dropwhile_keeps. apply sub_spaces_keeps.
Qed.

Lemma words_space (c : char) (t : pystr) :
  is_space c = true -> words (c :: t) = words t.
Proof. intro E. simpl. now rewrite E. Qed.

Lemma words_one (c : char) : is_space c = false -> words [c] = [[c]].
Proof. intro E. simpl. now rewrite E. Qed.

Lemma words_cons (c d : char) (t : pystr) :
  is_space c = false ->
  words (c :: d :: t) =
  if is_space d then [c] :: words (d :: t)
  else match words (d :: t) with
       | w :: ws => (c :: w) :: ws
       | [] => [[c]]
       end.
Proof.
  intro E. change (words (c :: d :: t))
    with (if is_space c then words (d :: t)
          else if is_space d then [c] :: words (d :: t)
               else match words (d :: t) with
                    | w :: ws => (c :: w) :: ws
                    | [] => [[c]]
                    end).
  now rewrite E.
Qed.

Lemma words_sub_spaces (s : pystr) : forall b, words (sub_spaces b s) = words s.
Proof.
  induction s as [| c s IH]; intro b; [reflexivity |].
  cbn [sub_spaces]. destruct (is_space c) eqn:E.
  - rewrite (@words_space c s E). destruct b; [apply IH |].
    rewrite words_space by reflexivity. apply IH.
  - destruct s as [| d s]; [reflexivity |].
    rewrite (@words_cons c d s E). specialize (IH false). cbn [sub_spaces] in *.
    destruct (is_space d) eqn:D.
    + rewrite (@words_cons c (L1 " ") _ E).
      replace (is_space (L1 " ")) with true by reflexivity. now rewrite IH.
    + rewrite (@words_cons c d _ E), D. now rewrite IH.
Qed.

Lemma words_lstrip (l : pystr) : words (dropwhile is_space l) = words l.
Proof.
  induction l as [| c l IH]; [reflexivity |].
  cbn [dropwhile]. destruct (is_space c) eqn:E; [| reflexivity].
  now rewrite (@words_space c l E).
Qed.

Lemma words_all_space (t : pystr) :
  Forall (fun c => is_space c = true) t -> words t = [].
Proof.
  induction 1 as [| c t E _ IH]; [reflexivity |]. now rewrite (@words_space c t E).
Qed.

Lemma words_rstrip (l : pystr) : words (rev (dropwhile is_space (rev l))) = words l.
Proof.
  induction l as [| c l IH]; [reflexivity |].
  rewrite rstrip_cons.
  destruct (rev (dropwhile is_space (rev l))) as [| x r] eqn:R.
  - pose proof (rstrip_nil _ R) as F. pose proof (words_all_space F) as W.
    destruct (is_space c) eqn:E.
    + now rewrite (@words_space c l E), W.
    + destruct l as [| d l]; [reflexivity |].
      rewrite (@words_cons c d l E), W, (@words_one c E).
      inversion F as [| ? ? Sd _]; subst. now rewrite Sd.
  - destruct (rstrip_head _ R) as (l' & ->).
    destruct (is_space c) eqn:E.
    + now rewrite !(@words_space c _ E).
    + rewrite !(@words_cons c x _ E). now rewrite IH.
Qed.

Lemma words_nonempty (c : char) (t : pystr) :
  is_space c = false -> words (c :: t) <> [].
Proof.
  intro E. destruct t as [| d t]; [now rewrite (@words_one c E) |].
  rewrite (@words_cons c d t E). destruct (is_space d); [discriminate |].
  destruct (words (d :: t)); discriminate.
Qed.

Lemma join_cons (c : char) (w : pystr) (ws : list pystr) :
  join ((c :: w) :: ws) = c :: join (w :: ws).
Proof. destruct ws; reflexivity. Qed.

Lemma single_spaced_head (c : char) (u : pystr) :
  single_spaced true (c :: u) = true ->
  is_space c = false /\ single_spaced false u = true.
Proof.
  simpl. destruct (is_space c); [| tauto].
  rewrite andb_false_r. discriminate.
Qed.

Lemma rstrip_tail (c : char) (u : pystr) :
  u <> [] -> rev (dropwhile is_space (rev (c :: u))) = c :: u ->
  rev (dropwhile is_space (rev u)) = u.
Proof.
  intros Ne R. rewrite rstrip_cons in R.
  destruct (rev (dropwhile is_space (rev u))) as [| x r].
  - destruct (is_space c); [discriminate R |].
    injection R as <-. contradiction.
  - now injection R.
Qed.

Lemma join_words_fixed (n : nat) : forall u,
  length u <= n ->
  single_spaced true u = true -> rev (dropwhile is_space (rev u)) = u ->
  join (words u) = u.
Proof.
  induction n as [| n IH]; intros u L H R.
  - destruct u; [reflexivity | simpl in L; lia].
  - destruct u as [| c u]; [reflexivity |].
    destruct (single_spaced_head _ _ H) as [E H'].
    destruct u as [| d u]; [now rewrite (@words_one c E) |].
    pose proof (@rstrip_tail c (d :: u) ltac:(discriminate) R) as R'.
    rewrite (@words_cons c d u E). destruct (is_space d) eqn:D.
    + assert (Hd : d = L1 " " /\ single_spaced true u = true).
      { simpl in H'. rewrite D in H'. apply andb_true_iff in H' as [H1 H2].
        rewrite andb_true_r in H1. apply eqb_eq in H1. now split. }
      destruct Hd as [-> Hu]. rewrite (@words_space (L1 " ") u D).
      destruct u as [| a u]; [vm_compute in R'; discriminate R' |].
      pose proof (@rstrip_tail (L1 " ") (a :: u) ltac:(discriminate) R') as Ru.
      destruct (single_spaced_head _ _ Hu) as [Ea _].
      pose proof (@words_nonempty a u Ea) as Ne.
      assert (J : join (words (a :: u)) = a :: u)
        by (apply IH; [simpl in *; lia | exact Hu | exact Ru]).
      destruct (words (a :: u)) as [| w ws]; [contradiction |].
      change (join ([c] :: w :: ws)) with ([c] ++ L1 " " :: join (w :: ws)).
      now rewrite J.
    + assert (Hu : single_spaced true (d :: u) = true)
        by (simpl in *; now rewrite D in *).
      assert (J : join (words (d :: u)) = d :: u)
        by (apply IH; [simpl in *; lia | exact Hu | exact R']).
      pose proof (@words_nonempty d u D) as Ne.
      destruct (words (d :: u)) as [| w ws]; [contradiction |].
      now rewrite join_cons, J.
Qed.

(** X12: [norm_spaces] joins the whitespace-separated words of its
    argument with single spaces: it is [" ".join(s.split())]. *)
Theorem norm_spaces_joins_words (s : pystr) :
  norm_spaces s = join (words s).
Proof.
  destruct (norm_spaces_single s) as [H R].
  rewrite <- (@join_words_fixed (length (norm_spaces s)) (norm_spaces s) (le_n _) H R).
  f_equal. unfold norm_spaces, strip.
  now rewrite words_rstrip, words_lstrip, words_sub_spaces.
Qed.

(** ** The parser: edges, and what decides each field *)

(** X13: a name without any whitespace character is never accepted,
    whatever else it holds: the tone must be preceded by whitespace. *)
Theorem whitespace_free_name_rejected (name : pystr) :
  no_space name -> parse_filename name = None.
Proof. apply parse_no_space. Qed.

Lemma whitespace_free_name_rejected_witness :
  parse_filename (str "CKT_template_90x90_cropped_light.png") = None.
Proof.
  apply whitespace_free_name_rejected. apply no_space_check. vm_compute. reflexivity.
Defined.

(** X14: the name built for an accepted name always differs from that
    name, so the test [new_name == p.name] never holds and no accepted file
    is left out of the plan as a no-op. *)
Theorem noop_test_never_holds (name : pystr) (d : descriptor) :
  parse_filename name = Some d -> str_eqb (build_new_name d) name = false.
Proof. intro H. apply str_eqb_neq. exact (build_differs H). Qed.

Lemma noop_test_never_holds_witness :
  str_eqb (str "ckt-template-90x90-crop-light.png")
          (str "CKT template 90x90 cropped light.png") = false.
Proof.
  apply (@noop_test_never_holds (str "CKT template 90x90 cropped light.png")
           (Descriptor (str "CKT template 90x90 cropped light.png")
              (str "template") (str "90x90") (str "crop") (str "light"))).
  vm_compute. reflexivity.
Defined.

Lemma split_at_dash (a : pystr) : forall a' b b',
  ~ In (L1 "-") a -> ~ In (L1 "-") a' ->
  a ++ L1 "-" :: b = a' ++ L1 "-" :: b' -> a = a' /\ b = b'.
Proof.
  induction a as [| x a IH]; intros [| y a'] b b' N N' E; simpl in *.
  - injection E as <-. now split.
  - injection E as <- _. exfalso. apply N'. now left.
  - injection E as -> _. exfalso. apply N. now left.
  - injection E as -> E. destruct (IH a' b b') as [-> ->]; try tauto.
Qed.

Lemma no_dash_check (s : pystr) :
  forallb (fun c => negb (eqb c (L1 "-"))) s = true -> ~ In (L1 "-") s.
Proof.
  intros H Hin. rewrite forallb_forall in H. apply H in Hin.
  now rewrite eqb_refl in Hin.
Qed.

Lemma digits_no_dash (w : pystr) : digits w -> ~ In (L1 "-") w.
Proof.
  intros [F _] H. rewrite Forall_forall in F. apply F in H. discriminate H.
Qed.

Lemma fields_no_dash (name : pystr) (d : descriptor) :
  parse_filename name = Some d ->
  ~ In (L1 "-") (family d) /\ ~ In (L1 "-") (size d) /\ ~ In (L1 "-") (variant d).
Proof.
  intro H. apply parse_fields in H as (_ & Hf & (w & h & Hs & Hw & Hh) & Hv & _).
  repeat split.
  - destruct Hf as [-> | ->]; apply no_dash_check; reflexivity.
  - rewrite Hs. intro X. apply in_app_or in X as [X | X];
      [now apply (digits_no_dash Hw) |].
    apply in_app_or in X as [X | X]; [| now apply (digits_no_dash Hh)].
    destruct X as [X | []]. discriminate X.
  - destruct Hv as [-> | [-> | ->]]; apply no_dash_check; reflexivity.
Qed.

(** X15: two accepted names get the same target only when they parse to
    the same family, size, variant and tone: the built name determines the
    four fields. *)
Theorem same_target_same_fields (n1 n2 : pystr) (d1 d2 : descriptor) :
  parse_filename n1 = Some d1 -> parse_filename n2 = Some d2 ->
  build_new_name d1 = build_new_name d2 ->
  family d1 = family d2 /\ size d1 = size d2 /\
  variant d1 = variant d2 /\ tone d1 = tone d2.
Proof.
  intros H1 H2 E.
  destruct (@fields_no_dash _ _ H1) as (F1 & S1 & V1).
  destruct (@fields_no_dash _ _ H2) as (F2 & S2 & V2).
  unfold build_new_name in E. apply app_inv_head in E.
  change (str "-" ++ ?x) with (L1 "-" :: x) in E.
  apply split_at_dash in E as [Ef E]; [| assumption ..].
  change (str "-" ++ ?x) with (L1 "-" :: x) in E.
  apply split_at_dash in E as [Es E]; [| assumption ..].
  change (str "-" ++ ?x) with (L1 "-" :: x) in E.
  apply split_at_dash in E as [Ev E]; [| assumption ..].
  apply app_inv_tail in E. tauto.
Qed.

Lemma same_target_same_fields_witness :
  size (Descriptor (str "CKT template 90x90 cropped light.png")
          (str "template") (str "90x90") (str "crop") (str "light"))
  = size (Descriptor (str "CKT TEMPLATE 90X90 CROPPED LIGHT.png")
            (str "template") (str "90x90") (str "crop") (str "light")).
Proof.
  apply (@same_target_same_fields
           (str "CKT template 90x90 cropped light.png")
           (str "CKT TEMPLATE 90X90 CROPPED LIGHT.png")).
  - vm_compute. reflexivity.
  - vm_compute. reflexivity.
  - vm_compute. reflexivity.
Defined.

Lemma whole_not_found (t : string) (s : pystr) :
  found (re_search true s (whole t)) = false <-> ~ contains_whole t s.
Proof.
  rewrite <- whole_found. destruct (found (re_search true s (whole t))); split.
  - discriminate.
  - intro H. exfalso. now apply H.
  - intros _ H. discriminate H.
  - reflexivity.
Qed.

Lemma start_found (t : string) (s : pystr) :
  found (re_match true s (Cat Bol (Cat (text t) Wordb))) = true <-> starts_whole t s.
Proof.
  unfold starts_whole, text. rewrite str_length. split.
  - destruct (re_match true s (Cat Bol (Cat (lits (list_ascii_of_string t)) Wordb)))
      as [mo |] eqn:E; [| discriminate].
    intros _. apply match_sound in E as [_ M].
    apply matches_cat_inv in M as (j1 & g1 & M1 & M).
    apply matches_bol_inv in M1 as (_ & -> & ->).
    apply matches_cat_inv in M as (j2 & g2 & M2 & M3).
    apply matches_wordb_inv in M3 as (B & _ & _).
    apply matches_lits in M2 as (-> & -> & Hk). split; [exact B |].
    intros k p Hp. unfold str in Hp. rewrite nth_error_map in Hp.
    destruct (nth_error (list_ascii_of_string t) k) as [a |] eqn:Ea; [| discriminate].
    injection Hp as <-. apply (@at_ok_char true s (Lit (L1 a))). now apply (Hk k a).
  - intros [B Hk].
    assert (M : matches true s (Cat Bol (Cat (lits (list_ascii_of_string t)) Wordb))
                  0 [] (length (list_ascii_of_string t)) []).
    { apply M_cat with (j := 0) (g1 := []); [constructor |].
      apply M_cat with (j := length (list_ascii_of_string t)) (g1 := []);
        [| now constructor].
      apply matches_lits. repeat split.
      intros k a Ha. destruct (Hk k (L1 a)) as (c & Ec & Hc).
      { unfold str. rewrite nth_error_map, Ha. reflexivity. }
      unfold at_ok. simpl. now rewrite Ec. }
    unfold re_match.
    destruct (m true s (Cat Bol (Cat (lits (list_ascii_of_string t)) Wordb)) 0 [] accept)
      as [[j g] |] eqn:E; [reflexivity |].
    pose proof (@m_complete _ _ _ _ _ _ E _ _ M) as A. discriminate A.
Qed.

Ltac table :=
  repeat match goal with
         | |- _ /\ _ => split
         | |- _ <-> _ => split
         end;
  intros; try reflexivity; try tauto;
  try (exfalso;
       match goal with
       | H : str _ = str _ |- _ => apply str_eqb_eq in H; vm_compute in H; discriminate H
       end).

(** X16: what decides the variant of an accepted name, on its working
    string (the normalised stem without the tone): crop exactly when it
    holds the whole word "cropped"; close exactly when it does not but holds
    "small close"; full in every other case, "small far" or not. *)
Theorem variant_table (name : pystr) (d : descriptor) (bwt : pystr) :
  parse_filename name = Some d ->
  base_wo_tone_of name = Some bwt ->
  (variant d = str "crop" <-> contains_whole "cropped" bwt) /\
  (variant d = str "close" <->
     ~ contains_whole "cropped" bwt /\ contains_whole "small close" bwt) /\
  (variant d = str "full" <->
     ~ contains_whole "cropped" bwt /\ ~ contains_whole "small close" bwt).
Proof.
  intros H B. rewrite (parse_variant _ H B). unfold variant_of.
  unfold CROPPED_RE, SMALL_CLOSE_RE, SMALL_FAR_RE.
  destruct (found (re_search true bwt (whole "cropped"))) eqn:C.
  - apply whole_found in C. table.
  - apply whole_not_found in C.
    destruct (found (re_search true bwt (whole "small close"))) eqn:S.
    + apply whole_found in S. table.
    + apply whole_not_found in S.
      destruct (found (re_search true bwt (whole "small far")));
        table.
Qed.

Lemma variant_table_witness :
  variant (Descriptor (str "CKT template small far 60x50 light.png")
             (str "template") (str "60x50") (str "full") (str "light"))
  = str "full" <->
  ~ contains_whole "cropped" (str "CKT template small far 60x50") /\
  ~ contains_whole "small close" (str "CKT template small far 60x50").
Proof.
  apply (@variant_table (str "CKT template small far 60x50 light.png")).
  - vm_compute. reflexivity.
  - vm_compute. reflexivity.
Defined.

(** X17: what decides the family, on the working string: aquarell exactly
    when it holds the whole word "aquarell" and not "template"; template
    when it holds "template", or holds neither word but starts with the
    word "ckt"; and a name whose working string has none of the three is
    rejected. *)
Theorem family_table (name : pystr) (bwt : pystr) :
  base_wo_tone_of name = Some bwt ->
  (forall d, parse_filename name = Some d ->
     (family d = str "aquarell" <->
        ~ contains_whole "template" bwt /\ contains_whole "aquarell" bwt) /\
     (family d = str "template" <->
        contains_whole "template" bwt \/
        (~ contains_whole "aquarell" bwt /\ starts_whole "ckt" bwt))) /\
  (~ contains_whole "template" bwt -> ~ contains_whole "aquarell" bwt ->
   ~ starts_whole "ckt" bwt -> parse_filename name = None).
Proof.
  intro B. unfold base_wo_tone_of in B.
  destruct (re_search true (base_of name) TONE_RE) as [m_tone |] eqn:T; [| discriminate].
  injection B as <-. set (bwt := wo_tone (base_of name) m_tone) in *.
  assert (F : forall d, parse_filename name = Some d -> family_of bwt = Some (family d)).
  { intros d H. apply parse_inv in H as (mt & ms & fam & _ & Ht & _ & Hf & ->).
    rewrite T in Ht. injection Ht as <-. exact Hf. }
  split.
  - intros d H. specialize (F d H). unfold family_of in F.
    unfold TEMPLATE_RE, AQUARELL_RE, CKT_RE in F.
    destruct (found (re_search true bwt (whole "template"))) eqn:E1.
    + apply whole_found in E1. injection F as <-.
      table.
    + apply whole_not_found in E1.
      destruct (found (re_search true bwt (whole "aquarell"))) eqn:E2.
      * apply whole_found in E2. injection F as <-.
        table.
      * apply whole_not_found in E2.
        destruct (found (re_match true bwt (Cat Bol (Cat (text "ckt") Wordb)))) eqn:E3;
          [| discriminate].
        apply start_found in E3. injection F as <-.
        table.
  - intros N1 N2 N3. destruct (parse_filename name) as [d |] eqn:H; [| reflexivity].
    specialize (F d eq_refl). unfold family_of in F.
    unfold TEMPLATE_RE, AQUARELL_RE, CKT_RE in F.
    apply whole_not_found in N1, N2. rewrite N1, N2 in F.
    destruct (found (re_match true bwt (Cat Bol (Cat (text "ckt") Wordb)))) eqn:E3;
      [| discriminate].
    apply start_found in E3. contradiction.
Qed.

Lemma family_table_witness :
  parse_filename (str "frame aquarelle 90x90 light.png") = None.
Proof.
  apply (proj2 (@family_table (str "frame aquarelle 90x90 light.png")
                  (str "frame aquarelle 90x90") ltac:(vm_compute; reflexivity))).
  - apply whole_not_found. vm_compute. reflexivity.
  - apply whole_not_found. vm_compute. reflexivity.
  - intro S. apply start_found in S. vm_compute in S. discriminate S.
Defined.

(** ** Accepted names end in [.png] *)

Lemma sub_spaces_snoc (x : pystr) (c : char) : forall b,
  is_space c = false -> sub_spaces b (x ++ [c]) = sub_spaces b x ++ [c].
Proof.
  induction x as [| y x IH]; intros b E; simpl.
  - now rewrite E.
  - destruct (is_space y); [destruct b |]; simpl; now rewrite IH.
Qed.

Lemma norm_spaces_snoc (x : pystr) (c : char) :
  is_space c = false -> exists y, norm_spaces (x ++ [c]) = y ++ [c].
Proof.
  intro E. unfold norm_spaces, strip. rewrite (@sub_spaces_snoc x c false E).
  rewrite dropwhile_snoc.
  assert (R : forall y, rev (dropwhile is_space (rev (y ++ [c]))) = y ++ [c]).
  { intro y. rewrite rev_app_distr. simpl. rewrite E. simpl.
    now rewrite rev_involutive. }
  destruct (dropwhile is_space (sub_spaces false x)) as [| a r].
  - rewrite E. exists []. apply (R []).
  - exists (a :: r). apply R.
Qed.

Lemma tone_match_end (s : pystr) (mo : mobj) :
  re_search true s TONE_RE = Some mo ->
  at_end s (m_end mo) = true /\
  exists i c, m_end mo = S i /\ nth_error s i = Some c /\
              (lit_match true (L1 "t") c = true \/ lit_match true (L1 "k") c = true).
Proof.
  intro H. apply search_sound in H as [_ M]. unfold TONE_RE in M.
  apply matches_cat_inv in M as (j1 & g1 & M1 & M).
  apply matches_cat_inv in M as (j2 & g2 & M2 & M3).
  apply matches_eol_inv in M3 as (A & E & _).
  apply matches_grp_inv in M2 as (g3 & M2 & _).
  rewrite E. split; [exact A |].
  apply matches_alt_inv in M2 as [M2 | M2];
    apply matches_lits in M2 as (-> & _ & Hk).
  - specialize (Hk 4 "t"%char eq_refl). apply at_ok_char in Hk as (c & Ec & Hc).
    exists (j1 + 4), c. repeat split; [simpl; lia | exact Ec | now left].
  - specialize (Hk 3 "k"%char eq_refl). apply at_ok_char in Hk as (c & Ec & Hc).
    exists (j1 + 3), c. repeat split; [simpl; lia | exact Ec | now right].
Qed.

Lemma base_ending_in_dot_has_no_tone (y : pystr) :
  re_search true (y ++ [L1 "."]) TONE_RE = None.
Proof.
  destruct (re_search true (y ++ [L1 "."]) TONE_RE) as [mo |] eqn:T; [| reflexivity].
  exfalso. apply tone_match_end in T as (A & i & c & E & Ec & Hc).
  assert (Hi : i < length (y ++ [L1 "."])) by (apply nth_error_Some; congruence).
  rewrite length_app in Hi. simpl in Hi.
  unfold at_end in A. rewrite E, length_app in A. cbn [length] in A.
  apply orb_true_iff in A as [A | A].
  - apply Nat.eqb_eq in A. assert (i = length y) by lia. subst i.
    rewrite nth_error_app2, Nat.sub_diag in Ec by lia. injection Ec as <-.
    destruct Hc as [Hc | Hc]; vm_compute in Hc; discriminate Hc.
  - apply andb_true_iff in A as [A N]. apply Nat.eqb_eq in A.
    assert (S i = length y) by lia.
    rewrite nth_error_app2 in N by lia.
    replace (S i - length y) with 0 in N by lia. simpl in N. discriminate N.
Qed.

(** X18: an accepted name ends in [.png], in any letter case: its last four
    characters are the extension, and the part before them is what gets
    normalised and parsed.  In particular a name that ends in a newline
    after [.png], which the pattern [\.png$] lets through, is rejected. *)
Theorem accepted_name_ends_in_png (name : pystr) (d : descriptor) :
  parse_filename name = Some d ->
  exists stem ext,
    name = stem ++ ext /\ like ".png" ext /\ base_of name = norm_spaces stem.
Proof.
  intro H. pose proof (@parse_inv _ _ H) as (m_tone & _ & _ & P & T & _).
  destruct (re_search true name PNG_RE) as [mo |] eqn:S; [| discriminate P].
  apply search_sound in S as [_ M]. unfold PNG_RE, text in M.
  apply matches_cat_inv in M as (j & g & M1 & M2).
  apply matches_eol_inv in M2 as (A & _ & _).
  apply matches_lits in M1 as (-> & _ & Hk).
  set (i := m_start mo) in *. simpl length in A.
  pose proof (slice_lits name (list_ascii_of_string ".png") i Hk) as L.
  simpl length in L.
  pose proof (Hk 3 "g"%char eq_refl) as H3. apply at_ok_lt in H3.
  unfold at_end in A. apply orb_true_iff in A as [A | A].
  - apply Nat.eqb_eq in A.
    exists (firstn i name), (skipn i name).
    assert (X : slice name i (i + 4) = skipn i name).
    { unfold slice. apply firstn_all2. rewrite length_skipn. lia. }
    rewrite X in L. repeat split.
    + symmetry. apply firstn_skipn.
    + exact L.
    + unfold base_of. do 2 f_equal. lia.
  - exfalso. apply andb_true_iff in A as [A _]. apply Nat.eqb_eq in A.
    pose proof (Hk 0 "."%char eq_refl) as H0. rewrite Nat.add_0_r in H0.
    apply at_ok_char in H0 as (c & Ec & Hc).
    assert (C : c = L1 ".").
    { apply (@lit_among "."%char c) in Hc. vm_compute in Hc.
      destruct Hc as [<- | []]. reflexivity. }
    subst c.
    assert (F : firstn (length name - 4) name = firstn i name ++ [L1 "."]).
    { replace (length name - 4) with (S i) by lia.
      rewrite <- (firstn_skipn i name) at 1.
      rewrite (skipn_nth _ _ Ec).
      rewrite firstn_app, firstn_all2 by (rewrite length_firstn; lia).
      rewrite length_firstn. replace (S i - Nat.min i (length name)) with 1 by lia.
      reflexivity. }
    unfold base_of in T. rewrite F in T.
    destruct (@norm_spaces_snoc (firstn i name) (L1 ".") eq_refl) as (y & Y).
    rewrite Y, base_ending_in_dot_has_no_tone in T. discriminate T.
Qed.

Lemma accepted_name_ends_in_png_witness :
  exists stem ext,
    str "CKT template 90x90 cropped light.PNG" = stem ++ ext /\ like ".png" ext /\
    base_of (str "CKT template 90x90 cropped light.PNG") = norm_spaces stem.
Proof.
  apply (@accepted_name_ends_in_png (str "CKT template 90x90 cropped light.PNG")
           (Descriptor (str "CKT template 90x90 cropped light.PNG")
              (str "template") (str "90x90") (str "crop") (str "light"))).
  vm_compute. reflexivity.
Defined.

(** ** The target depends on the name up to letter case *)

Lemma same_lower_facts (c c' : char) :
  lower c = lower c' ->
  is_space c = is_space c' /\ is_digit c = is_digit c' /\ is_word c = is_word c' /\
  tolower c = tolower c' /\ eqb c (L1 "010") = eqb c' (L1 "010").
Proof.
  intro H.
  assert (A : forallb (fun c => forallb (fun c' =>
                implb (str_eqb (lower c) (lower c'))
                      (Bool.eqb (is_space c) (is_space c')
                       && Bool.eqb (is_digit c) (is_digit c')
                       && Bool.eqb (is_word c) (is_word c')
                       && eqb (tolower c) (tolower c')
                       && Bool.eqb (eqb c (L1 "010")) (eqb c' (L1 "010"))))
                all_chars) all_chars = true) by (vm_compute; reflexivity).
  rewrite forallb_forall in A. specialize (A c (all_chars_in c)).
  rewrite forallb_forall in A. specialize (A c' (all_chars_in c')).
  rewrite (proj2 (str_eqb_eq _ _) H) in A. simpl in A.
  repeat (apply andb_true_iff in A as [A ?]).
  repeat split; try (now apply Bool.eqb_prop); now apply eqb_eq.
Qed.

Lemma forall2_nth (R : char -> char -> Prop) (l l' : pystr) :
  Forall2 R l l' -> forall i,
  match nth_error l i, nth_error l' i with
  | Some c, Some c' => R c c'
  | None, None => True
  | _, _ => False
  end.
Proof.
  induction 1 as [| c c' t t' Rc _ IH]; intros [| i]; simpl; auto.
  apply IH.
Qed.

Section SameLower.

Variables s s' : pystr.
Hypothesis related : Forall2 (fun c c' => lower c = lower c') s s'.

Lemma related_nth (i : nat) :
  match nth_error s i, nth_error s' i with
  | Some c, Some c' => lower c = lower c'
  | None, None => True
  | _, _ => False
  end.
Proof. exact (forall2_nth related i). Qed.

Lemma related_at_ok (a : atom) (i : nat) : at_ok true s a i = at_ok true s' a i.
Proof.
  unfold at_ok. pose proof (related_nth i) as R.
  destruct (nth_error s i) as [c |], (nth_error s' i) as [c' |];
    try contradiction; [| reflexivity].
  apply same_lower_facts in R as (Sp & Dg & _ & Tl & _).
  destruct a as [p | |]; simpl; [| exact Sp | exact Dg].
  unfold lit_match. now rewrite Tl.
Qed.

Lemma related_word_at (i : nat) : word_at s i = word_at s' i.
Proof.
  unfold word_at. pose proof (related_nth i) as R.
  destruct (nth_error s i) as [c |], (nth_error s' i) as [c' |];
    try contradiction; [| reflexivity].
  now apply same_lower_facts in R.
Qed.

Lemma related_boundary (i : nat) : boundary s i = boundary s' i.
Proof.
  unfold boundary. rewrite related_word_at.
  destruct i as [| j]; [reflexivity |]. now rewrite related_word_at.
Qed.

Lemma related_at_end (i : nat) : at_end s i = at_end s' i.
Proof.
  unfold at_end. rewrite (Forall2_length related).
  pose proof (related_nth i) as R.
  destruct (nth_error s i) as [c |], (nth_error s' i) as [c' |];
    try contradiction; [| reflexivity].
  apply same_lower_facts in R as (_ & _ & _ & _ & N). now rewrite N.
Qed.

Lemma related_run (a : atom) (fuel : nat) : forall i,
  run true s a i fuel = run true s' a i fuel.
Proof.
  induction fuel as [| f IH]; intro i; simpl; [reflexivity |].
  rewrite related_at_ok. now rewrite IH.
Qed.

Lemma back_ext (k k' : nat -> result) (i lo : nat) : forall n,
  (forall j, k j = k' j) -> back k i lo n = back k' i lo n.
Proof.
  induction n as [| n IH]; intro H; simpl; rewrite H; [reflexivity |].
  now rewrite IH.
Qed.

Lemma related_m (r : regex) : forall i g k k',
  (forall j g', k j g' = k' j g') -> m true s r i g k = m true s' r i g k'.
Proof.
  induction r as [| a | a lo hi | r1 IH1 r2 IH2 | r1 IH1 r2 IH2 | n r IH | | |];
    intros i g k k' H; simpl.
  - apply H.
  - rewrite related_at_ok. now rewrite H.
  - rewrite related_run, (Forall2_length related). apply back_ext. intro j. apply H.
  - apply IH1. intros j g'. now apply IH2.
  - rewrite (IH1 i g k k' H), (IH2 i g k k' H). reflexivity.
  - apply IH. intros j g'. apply H.
  - now rewrite H.
  - rewrite related_at_end. now rewrite H.
  - rewrite related_boundary. now rewrite H.
Qed.

Lemma related_search (r : regex) : re_search true s r = re_search true s' r.
Proof.
  unfold re_search. rewrite (Forall2_length related).
  generalize 0. induction (length s') as [| f IH]; intro i; simpl;
    rewrite (related_m r i [] accept accept (fun _ _ => eq_refl));
    [reflexivity |]. now rewrite IH.
Qed.

Lemma related_match (r : regex) : re_match true s r = re_match true s' r.
Proof.
  unfold re_match. now rewrite (related_m r 0 [] accept accept (fun _ _ => eq_refl)).
Qed.

End SameLower.

Lemma forall2_firstn (R : char -> char -> Prop) (n : nat) : forall l l',
  Forall2 R l l' -> Forall2 R (firstn n l) (firstn n l').
Proof.
  induction n as [| n IH]; intros l l' H; [constructor |].
  destruct H; simpl; constructor; auto.
Qed.

Lemma forall2_skipn (R : char -> char -> Prop) (n : nat) : forall l l',
  Forall2 R l l' -> Forall2 R (skipn n l) (skipn n l').
Proof.
  induction n as [| n IH]; intros l l' H; [exact H |].
  destruct H; simpl; [constructor | auto].
Qed.

Lemma forall2_rev (R : char -> char -> Prop) (l l' : pystr) :
  Forall2 R l l' -> Forall2 R (rev l) (rev l').
Proof.
  induction 1 as [| c c' t t' Rc _ IH]; simpl; [constructor |].
  apply Forall2_app; [exact IH | now repeat constructor].
Qed.

Lemma same_lower_dropwhile (l l' : pystr) :
  Forall2 (fun c c' => lower c = lower c') l l' ->
  Forall2 (fun c c' => lower c = lower c') (dropwhile is_space l) (dropwhile is_space l').
Proof.
  induction 1 as [| c c' t t' Rc Rt IH]; simpl; [constructor |].
  destruct (@same_lower_facts _ _ Rc) as (<- & _). destruct (is_space c); [exact IH |].
  now constructor.
Qed.

Lemma same_lower_strip (l l' : pystr) :
  Forall2 (fun c c' => lower c = lower c') l l' ->
  Forall2 (fun c c' => lower c = lower c') (strip l) (strip l').
Proof.
  intro H. unfold strip.
  now apply forall2_rev, same_lower_dropwhile, forall2_rev, same_lower_dropwhile.
Qed.

Lemma same_lower_sub_spaces (l l' : pystr) :
  Forall2 (fun c c' => lower c = lower c') l l' -> forall b,
  Forall2 (fun c c' => lower c = lower c') (sub_spaces b l) (sub_spaces b l').
Proof.
  induction 1 as [| c c' t t' Rc Rt IH]; intro b; simpl; [constructor |].
  destruct (@same_lower_facts _ _ Rc) as (<- & _).
  destruct (is_space c); [destruct b |]; try apply IH; constructor; auto.
Qed.

Lemma same_lower_base (name name' : pystr) :
  Forall2 (fun c c' => lower c = lower c') name name' ->
  Forall2 (fun c c' => lower c = lower c') (base_of name) (base_of name').
Proof.
  intro H. unfold base_of, norm_spaces. rewrite (Forall2_length H).
  now apply same_lower_strip, same_lower_sub_spaces, forall2_firstn.
Qed.

Lemma same_lower_str (l l' : pystr) :
  Forall2 (fun c c' => lower c = lower c') l l' -> lower_str l = lower_str l'.
Proof.
  induction 1 as [| c c' t t' Rc _ IH]; [reflexivity |].
  unfold lower_str in *. simpl. now rewrite Rc, IH.
Qed.

Lemma same_lower_group (l l' : pystr) (mo : mobj) (n : nat) :
  Forall2 (fun c c' => lower c = lower c') l l' ->
  lower_str (group l mo n) = lower_str (group l' mo n).
Proof.
  intro H. unfold group. destruct (span_of n (m_groups mo)) as [[a b] |]; [| reflexivity].
  apply same_lower_str. unfold slice. now apply forall2_firstn, forall2_skipn.
Qed.

(** X19: the target does not depend on the letter case of the name: two
    names whose characters have, position by position, the same lower case
    are both rejected or get the same target. *)
Theorem target_ignores_letter_case (name name' : pystr) :
  Forall2 (fun c c' => lower c = lower c') name name' ->
  option_map build_new_name (parse_filename name)
  = option_map build_new_name (parse_filename name').
Proof.
  intro H. pose proof (same_lower_base H) as B.
  unfold parse_filename. rewrite (related_search H PNG_RE).
  destruct (negb (found (re_search true name' PNG_RE))); [reflexivity |].
  rewrite (related_search B TONE_RE).
  destruct (re_search true (base_of name') TONE_RE) as [m_tone |]; [| reflexivity].
  assert (W : Forall2 (fun c c' => lower c = lower c')
                (wo_tone (base_of name) m_tone) (wo_tone (base_of name') m_tone))
    by (unfold wo_tone; now apply same_lower_strip, forall2_firstn).
  cbv zeta. rewrite (related_search W SIZE_RE).
  destruct (re_search true (wo_tone (base_of name') m_tone) SIZE_RE) as [m_size |];
    [| reflexivity].
  unfold family_of, variant_of.
  rewrite (related_search W TEMPLATE_RE), (related_search W AQUARELL_RE),
          (related_match W CKT_RE), (related_search W CROPPED_RE),
          (related_search W SMALL_CLOSE_RE), (related_search W SMALL_FAR_RE).
  assert (E : forall fam v,
            build_new_name (Descriptor name fam
                (lower_str (group (wo_tone (base_of name) m_tone) m_size 1)) v
                (lower_str (group (base_of name) m_tone 1)))
            = build_new_name (Descriptor name' fam
                (lower_str (group (wo_tone (base_of name') m_tone) m_size 1)) v
                (lower_str (group (base_of name') m_tone 1)))).
  { intros fam v. unfold build_new_name. simpl.
    now rewrite (same_lower_group m_size 1 W), (same_lower_group m_tone 1 B). }
  repeat match goal with
         | |- context [if ?b then _ else _] => destruct b
         end; simpl; try reflexivity; now rewrite E.
Qed.

Lemma target_ignores_letter_case_witness :
  option_map build_new_name (parse_filename (str "CKT template 90x90 cropped light.png"))
  = option_map build_new_name (parse_filename (str "ckt TEMPLATE 90X90 Cropped LIGHT.PNG")).
Proof.
  apply target_ignores_letter_case.
  repeat (constructor; [reflexivity |]). constructor.
Defined.

(** ** The target depends on the stem up to whitespace layout *)

Lemma parse_by_base (name name' : pystr) :
  found (re_search true name PNG_RE) = true ->
  found (re_search true name' PNG_RE) = true ->
  base_of name = base_of name' ->
  option_map build_new_name (parse_filename name)
  = option_map build_new_name (parse_filename name').
Proof.
  intros P P' B. unfold parse_filename. rewrite P, P', B. simpl negb. cbv iota.
  destruct (re_search true (base_of name') TONE_RE) as [m_tone |]; [| reflexivity].
  cbv zeta.
  destruct (re_search true (wo_tone (base_of name') m_tone) SIZE_RE) as [m_size |];
    [| reflexivity].
  destruct (family_of (wo_tone (base_of name') m_tone)); reflexivity.
Qed.

Lemma like_nth (t : list ascii) (u : pystr) :
  Forall2 (fun p c => lit_match true (L1 p) c = true) t u ->
  forall k a, nth_error t k = Some a ->
  exists c, nth_error u k = Some c /\ lit_match true (L1 a) c = true.
Proof.
  induction 1 as [| p c t u Hc _ IH]; intros [| k] a Ha; simpl in *; try discriminate.
  - injection Ha as <-. now exists c.
  - now apply IH.
Qed.

Lemma png_found (stem ext : pystr) :
  like ".png" ext -> found (re_search true (stem ++ ext) PNG_RE) = true.
Proof.
  intro L. pose proof (Forall2_length L) as Len. simpl in Len.
  apply found_search. exists (length stem), (length stem + 4), [].
  split; [rewrite length_app; lia |].
  unfold PNG_RE, text.
  apply M_cat with (j := length stem + 4) (g1 := []).
  - apply (matches_lits true (stem ++ ext) (list_ascii_of_string ".png")).
    repeat split. intros k a Ha.
    destruct (like_nth L k Ha) as (c & Ec & Hc).
    unfold at_ok. rewrite nth_error_app2 by lia.
    replace (length stem + k - length stem) with k by lia. now rewrite Ec.
  - constructor. unfold at_end. rewrite length_app, <- Len.
    now rewrite Nat.eqb_refl.
Qed.

Lemma base_of_stem (stem ext : pystr) :
  like ".png" ext -> base_of (stem ++ ext) = norm_spaces stem.
Proof.
  intro L. pose proof (Forall2_length L) as Len. simpl in Len.
  unfold base_of. rewrite length_app, <- Len.
  replace (length stem + 4 - 4) with (length stem + 0) by lia.
  now rewrite firstn_app_2, app_nil_r.
Qed.

(** X20: the target does not depend on how the stem is spaced: two names
    that end in [.png] (in any letter case) and whose stems normalise to the
    same string, whatever whitespace separates or surrounds their words,
    are both rejected or get the same target. *)
Theorem target_ignores_spacing (stem stem' ext ext' : pystr) :
  like ".png" ext -> like ".png" ext' ->
  norm_spaces stem = norm_spaces stem' ->
  option_map build_new_name (parse_filename (stem ++ ext))
  = option_map build_new_name (parse_filename (stem' ++ ext')).
Proof.
  intros L L' W. apply parse_by_base; try now apply png_found.
  now rewrite !base_of_stem by assumption.
Qed.

Lemma target_ignores_spacing_witness :
  option_map build_new_name
    (parse_filename (str "CKT template 90x90 cropped light" ++ str ".png"))
  = option_map build_new_name
      (parse_filename (str "  CKT   template 90x90  cropped light " ++ str ".PNG")).
Proof.
  apply target_ignores_spacing.
  - repeat (constructor; [reflexivity |]). constructor.
  - repeat (constructor; [reflexivity |]). constructor.
  - vm_compute. reflexivity.
Defined.

(** ** The tone is the last word of the stem *)

Lemma tone_match_span (s : pystr) (mo : mobj) :
  re_search true s TONE_RE = Some mo ->
  exists n, 1 <= n /\
    (forall t, t < n -> at_ok true s Space (m_start mo + t) = true) /\
    at_end s (m_end mo) = true /\
    m_start mo + n <= m_end mo <= length s /\
    group s mo 1 = slice s (m_start mo + n) (m_end mo).
Proof.
  intro H. apply search_sound in H as [Hs M]. unfold TONE_RE in M.
  pose proof (matches_bounds M Hs) as Bd.
  apply matches_cat_inv in M as (j1 & g1 & M1 & M).
  apply matches_rep_inv in M1 as (-> & n & -> & Hn & _ & Hok).
  apply matches_cat_inv in M as (j2 & g2 & M2 & M3).
  apply matches_eol_inv in M3 as (A & E & Eg).
  apply matches_grp_inv in M2 as (g3 & M2 & E2).
  exists n. repeat split; try assumption; try lia.
  - now rewrite E.
  - rewrite E. apply matches_alt_inv in M2 as [M2 | M2];
      apply matches_lits in M2 as (-> & _ & _); lia.
  - unfold group. rewrite Eg, E2. simpl. now rewrite E.
Qed.

Lemma nth_split_two (s : pystr) (i : nat) (c d : char) :
  nth_error s i = Some c -> nth_error s (S i) = Some d ->
  s = firstn i s ++ c :: d :: skipn (S (S i)) s.
Proof.
  intros Hc Hd. rewrite <- (firstn_skipn i s) at 1.
  now rewrite (skipn_nth _ _ Hc), (skipn_nth _ _ Hd).
Qed.

Lemma single_spaced_prefix (l1 l2 : pystr) : forall b,
  single_spaced b (l1 ++ l2) = true -> single_spaced b l1 = true.
Proof.
  induction l1 as [| c l1 IH]; intros b H; [reflexivity |].
  simpl in *. destruct (is_space c).
  - apply andb_true_iff in H as [H1 H2]. rewrite H1. simpl. now apply (IH true).
  - now apply (IH false).
Qed.

Lemma rstrip_fixed (y : pystr) (c : char) :
  is_space c = false -> rev (dropwhile is_space (rev (y ++ [c]))) = y ++ [c].
Proof.
  intro E. rewrite rev_app_distr. simpl. rewrite E. simpl. now rewrite rev_involutive.
Qed.

Lemma strip_fixed (u : pystr) :
  single_spaced true u = true ->
  (forall y c, u = y ++ [c] -> is_space c = false) -> strip u = u.
Proof.
  intros H L. unfold strip. rewrite (single_spaced_lstrip _ H).
  destruct (rev u) as [| c r] eqn:R.
  - apply (f_equal (@rev char)) in R. rewrite rev_involutive in R. now subst u.
  - apply (f_equal (@rev char)) in R. rewrite rev_involutive in R. simpl in R.
    subst u. simpl. rewrite (L (rev r) c eq_refl). reflexivity.
Qed.

(** X21: in an accepted name the tone is the last word of the normalised
    stem: the stem is the working string, one space, and a word that is
    [light] or [dark] up to letter case; the tone is that word in lower
    case, and the working string is all that stands before the space. *)
Theorem tone_is_last_word (name : pystr) (d : descriptor) :
  parse_filename name = Some d ->
  exists pre tn,
    base_of name = pre ++ L1 " " :: tn /\
    (like "light" tn \/ like "dark" tn) /\
    tone d = lower_str tn /\
    base_wo_tone_of name = Some pre.
Proof.
  intro H. apply parse_inv in H as (m_tone & m_size & fam & _ & T & _ & _ & ->).
  pose proof (@tone_match _ _ T) as [_ Lk].
  pose proof (@tone_match_span _ _ T) as (n & Hn & Hok & A & Bd & G).
  unfold base_of in *. set (base := norm_spaces (firstn (length name - 4) name)) in *.
  destruct (norm_spaces_single (firstn (length name - 4) name)) as [Sg Rs].
  fold base in Sg, Rs. set (i := m_start m_tone) in *.
  pose proof (Hok 0 ltac:(lia)) as H0. rewrite Nat.add_0_r in H0.
  apply at_ok_char in H0 as (c & Ec & Sc). simpl in Sc.
  assert (C : c = L1 " ")
    by (apply (single_spaced_spaces _ _ Sg); [eapply nth_error_In; exact Ec | exact Sc]).
  subst c.
  assert (N1 : n = 1).
  { destruct (Nat.eq_dec n 1) as [-> | Ne]; [reflexivity |]. exfalso.
    pose proof (Hok 1 ltac:(lia)) as H1. apply at_ok_char in H1 as (d & Ed & Sd).
    simpl in Sd. replace (i + 1) with (S i) in Ed by lia.
    pose proof (nth_split_two _ _ Ec Ed) as Sp. rewrite Sp in Sg.
    pose proof (single_spaced_adjacent _ _ _ _ _ Sg eq_refl) as X. congruence. }
  subst n.
  assert (J : m_end m_tone = length base).
  { unfold at_end in A. apply orb_true_iff in A as [A | A]; [now apply Nat.eqb_eq |].
    exfalso. apply andb_true_iff in A as [_ A].
    destruct (nth_error base (m_end m_tone)) as [e |] eqn:Ee; [| discriminate A].
    apply eqb_eq in A. subst e.
    pose proof (single_spaced_spaces _ _ Sg (L1 "010")
                  (nth_error_In _ _ Ee) eq_refl) as X. discriminate X. }
  assert (Gs : group base m_tone 1 = skipn (S i) base).
  { rewrite G, J. unfold slice. replace (i + 1) with (S i) by lia.
    apply firstn_all2. rewrite length_skipn. lia. }
  assert (Sp : base = firstn i base ++ L1 " " :: skipn (S i) base).
  { rewrite <- (firstn_skipn i base) at 1. now rewrite (skipn_nth _ _ Ec). }
  exists (firstn i base), (skipn (S i) base). repeat split.
  - exact Sp.
  - now rewrite <- Gs.
  - simpl. now rewrite Gs.
  - unfold base_wo_tone_of, base_of. fold base. rewrite T. unfold wo_tone. fold i.
    f_equal. apply strip_fixed.
    + rewrite Sp in Sg. exact (single_spaced_prefix _ _ _ Sg).
    + intros y e Ey. destruct (is_space e) eqn:Se; [| reflexivity]. exfalso.
      rewrite Sp, Ey, <- app_assoc in Sg. simpl in Sg.
      pose proof (single_spaced_adjacent _ _ _ _ _ Sg Se) as X. discriminate X.
Qed.

Lemma tone_is_last_word_witness :
  exists pre tn,
    base_of (str " CKT  template 90x90 cropped   LIGHT.png") = pre ++ L1 " " :: tn /\
    (like "light" tn \/ like "dark" tn) /\
    str "light" = lower_str tn /\
    base_wo_tone_of (str " CKT  template 90x90 cropped   LIGHT.png") = Some pre.
Proof.
  apply (@tone_is_last_word (str " CKT  template 90x90 cropped   LIGHT.png")
           (Descriptor (str " CKT  template 90x90 cropped   LIGHT.png")
              (str "template") (str "90x90") (str "crop") (str "light"))).
  vm_compute. reflexivity.
Defined.

(** ** The documented patterns, for every size *)

Lemma digit_lit_mismatch (p c : char) :
  is_digit p = false -> is_digit c = true -> lit_match true p c = false.
Proof.
  intros Hp Hc.
  assert (A : forallb (fun p => forallb (fun c =>
                is_digit p || negb (is_digit c) || negb (lit_match true p c))
                all_chars) all_chars = true) by (vm_compute; reflexivity).
  rewrite forallb_forall in A. specialize (A p (all_chars_in p)).
  rewrite forallb_forall in A. specialize (A c (all_chars_in c)).
  rewrite Hp, Hc in A. cbn [orb negb] in A.
  destruct (lit_match true p c); [discriminate A | reflexivity].
Qed.

Lemma digit_classes (c : char) :
  is_digit c = true ->
  is_space c = false /\ is_word c = true /\ eqb c (L1 "010") = false.
Proof.
  intro H.
  assert (A : implb (is_digit c)
                (negb (is_space c) && is_word c && negb (eqb c (L1 "010"))) = true)
    by (revert c H; intros c _; revert c; apply char_forall; vm_compute; reflexivity).
  rewrite H in A. simpl in A.
  apply andb_true_iff in A as [A N]. apply andb_true_iff in A as [S W].
  repeat split.
  - destruct (is_space c); [discriminate S | reflexivity].
  - exact W.
  - destruct (eqb c (L1 "010")); [discriminate N | reflexivity].
Qed.

Section SameButDigits.

Variables s s' : pystr.
Hypothesis alike : Forall2 same_but_digits s s'.

Lemma alike_nth (i : nat) :
  match nth_error s i, nth_error s' i with
  | Some c, Some c' => same_but_digits c c'
  | None, None => True
  | _, _ => False
  end.
Proof. exact (forall2_nth alike i). Qed.

Lemma alike_at_ok (a : atom) (i : nat) :
  Forall (fun p => is_digit p = false) (literals (Atm a)) ->
  at_ok true s a i = at_ok true s' a i.
Proof.
  intro L. unfold at_ok. pose proof (alike_nth i) as R.
  destruct (nth_error s i) as [c |], (nth_error s' i) as [c' |];
    try contradiction; [| reflexivity].
  destruct R as [-> | [D D']]; [reflexivity |].
  destruct a as [p | |]; cbn [atom_ok].
  - inversion L as [| ? ? Hp _]; subst.
    now rewrite (digit_lit_mismatch _ _ Hp D), (digit_lit_mismatch _ _ Hp D').
  - destruct (@digit_classes _ D) as (-> & _). now destruct (@digit_classes _ D') as (-> & _).
  - now rewrite D, D'.
Qed.

Lemma alike_word_at (i : nat) : word_at s i = word_at s' i.
Proof.
  unfold word_at. pose proof (alike_nth i) as R.
  destruct (nth_error s i) as [c |], (nth_error s' i) as [c' |];
    try contradiction; [| reflexivity].
  destruct R as [-> | [D D']]; [reflexivity |].
  destruct (@digit_classes _ D) as (_ & -> & _). now destruct (@digit_classes _ D') as (_ & -> & _).
Qed.

Lemma alike_boundary (i : nat) : boundary s i = boundary s' i.
Proof.
  unfold boundary. rewrite alike_word_at.
  destruct i as [| j]; [reflexivity |]. now rewrite alike_word_at.
Qed.

Lemma alike_at_end (i : nat) : at_end s i = at_end s' i.
Proof.
  unfold at_end. rewrite (Forall2_length alike).
  pose proof (alike_nth i) as R.
  destruct (nth_error s i) as [c |], (nth_error s' i) as [c' |];
    try contradiction; [| reflexivity].
  destruct R as [-> | [D D']]; [reflexivity |].
  destruct (@digit_classes _ D) as (_ & _ & ->). now destruct (@digit_classes _ D') as (_ & _ & ->).
Qed.

Lemma alike_run (a : atom) (fuel : nat) :
  Forall (fun p => is_digit p = false) (literals (Atm a)) ->
  forall i, run true s a i fuel = run true s' a i fuel.
Proof.
  intro L. induction fuel as [| f IH]; intro i; simpl; [reflexivity |].
  rewrite (alike_at_ok _ i L). now rewrite IH.
Qed.

Lemma alike_m (r : regex) :
  Forall (fun p => is_digit p = false) (literals r) ->
  forall i g k k',
  (forall j g', k j g' = k' j g') -> m true s r i g k = m true s' r i g k'.
Proof.
  induction r as [| a | a lo hi | r1 IH1 r2 IH2 | r1 IH1 r2 IH2 | n r IH | | |];
    intros L i g k k' H; simpl.
  - apply H.
  - rewrite (alike_at_ok _ i L). now rewrite H.
  - rewrite alike_run, (Forall2_length alike);
      [| destruct a; [exact L | constructor | constructor]].
    apply back_ext. intro j. apply H.
  - simpl in L. apply Forall_app in L as [L1' L2'].
    apply IH1; [exact L1' |]. intros j g'. now apply IH2.
  - simpl in L. apply Forall_app in L as [L1' L2'].
    rewrite (IH1 L1' i g k k' H), (IH2 L2' i g k k' H). reflexivity.
  - apply IH; [exact L |]. intros j g'. apply H.
  - now rewrite H.
  - rewrite alike_at_end. now rewrite H.
  - rewrite alike_boundary. now rewrite H.
Qed.

Lemma alike_search (r : regex) :
  Forall (fun p => is_digit p = false) (literals r) ->
  re_search true s r = re_search true s' r.
Proof.
  intro L. unfold re_search. rewrite (Forall2_length alike).
  generalize 0. induction (length s') as [| f IH]; intro i; simpl;
    rewrite (@alike_m r L i [] accept accept (fun _ _ => eq_refl));
    [reflexivity |]. now rewrite IH.
Qed.

Lemma alike_match (r : regex) :
  Forall (fun p => is_digit p = false) (literals r) ->
  re_match true s r = re_match true s' r.
Proof.
  intro L. unfold re_match.
  now rewrite (@alike_m r L 0 [] accept accept (fun _ _ => eq_refl)).
Qed.

End SameButDigits.

Lemma literals_ok (r : regex) :
  forallb (fun p => negb (is_digit p)) (literals r) = true ->
  Forall (fun p => is_digit p = false) (literals r).
Proof.
  intro H. rewrite forallb_forall in H. apply Forall_forall.
  intros p Hp. apply H in Hp. now destruct (is_digit p).
Qed.

Lemma alike_zeroed (l : pystr) : Forall2 same_but_digits l (zeroed l).
Proof.
  induction l as [| c l IH]; simpl; constructor; [| exact IH].
  destruct (is_digit c) eqn:D; [right; now split | now left].
Qed.

Lemma alike_spaces (l l0 : pystr) :
  Forall2 same_but_digits l l0 -> map is_space l = map is_space l0.
Proof.
  induction 1 as [| c c' t t' R _ IH]; simpl; [reflexivity |]. f_equal; [| exact IH].
  destruct R as [-> | [D D']]; [reflexivity |].
  destruct (@digit_classes _ D) as (-> & _). now destruct (@digit_classes _ D') as (-> & _).
Qed.

Lemma alike_single_spaced (l l0 : pystr) :
  Forall2 same_but_digits l l0 -> forall b, single_spaced b l = single_spaced b l0.
Proof.
  induction 1 as [| c c' t t' R _ IH]; intro b; simpl; [reflexivity |].
  destruct R as [-> | [D D']]; [destruct (is_space c'); now rewrite IH |].
  destruct (@digit_classes _ D) as (-> & _). destruct (@digit_classes _ D') as (-> & _).
  apply IH.
Qed.

Lemma dropwhile_same_length (p : char -> bool) (l : pystr) :
  length (dropwhile p l) = length l -> dropwhile p l = l.
Proof.
  destruct l as [| c l]; simpl; [reflexivity |].
  destruct (p c); [| reflexivity].
  intro H. pose proof (dropwhile_length p l). lia.
Qed.

Lemma alike_dropwhile_fixed (l l0 : pystr) :
  Forall2 same_but_digits l l0 ->
  dropwhile is_space l0 = l0 -> dropwhile is_space l = l.
Proof.
  intros A H. apply alike_spaces in A.
  destruct l as [| c l], l0 as [| c0 l0]; try discriminate A; [reflexivity |].
  simpl in *. injection A as -> _. destruct (is_space c0); [| reflexivity].
  apply (f_equal (@length char)) in H. simpl in H.
  pose proof (dropwhile_length is_space l0). lia.
Qed.

Lemma strip_fixed_parts (u : pystr) :
  strip u = u ->
  dropwhile is_space u = u /\ dropwhile is_space (rev u) = rev u.
Proof.
  unfold strip. intro H.
  assert (L : length (dropwhile is_space u) = length u).
  { pose proof (dropwhile_length is_space u).
    pose proof (dropwhile_length is_space (rev (dropwhile is_space u))) as L2.
    rewrite length_rev in L2. apply (f_equal (@length char)) in H.
    rewrite length_rev in H. lia. }
  apply dropwhile_same_length in L. rewrite L in H. split; [exact L |].
  apply (f_equal (@rev char)) in H. now rewrite rev_involutive in H.
Qed.

Lemma alike_strip_fixed (u u0 : pystr) :
  Forall2 same_but_digits u u0 -> strip u0 = u0 -> strip u = u.
Proof.
  intros A H. apply strip_fixed_parts in H as [H1 H2]. unfold strip.
  rewrite (alike_dropwhile_fixed A H1).
  rewrite (alike_dropwhile_fixed (forall2_rev A) H2). apply rev_involutive.
Qed.

Lemma alike_norm_fixed (u u0 : pystr) :
  Forall2 same_but_digits u u0 -> norm_spaces u0 = u0 -> norm_spaces u = u.
Proof.
  intros A H. destruct (norm_spaces_single u0) as [S R]. rewrite H in S, R.
  apply norm_spaces_fixed.
  - now rewrite (alike_single_spaced A).
  - apply (f_equal (@rev char)) in R. rewrite rev_involutive in R.
    rewrite (alike_dropwhile_fixed (forall2_rev A) R). apply rev_involutive.
Qed.

(** Symbolic evaluation of [parse_filename] on a name whose digits are
    variables: every search is run on the name with its digits zeroed. *)
Ltac rewrite_digits :=
  repeat match goal with
         | H : is_digit ?x = true |- context [is_digit ?x] => rewrite H
         end.

Ltac zero_out := unfold zeroed; cbn [map]; rewrite_digits.

Ltac eval_search r :=
  match goal with
  | |- context [re_search true ?l r] =>
      rewrite (alike_search (alike_zeroed l) r) by (apply literals_ok; reflexivity);
      zero_out;
      match goal with
      | |- context [re_search true ?l0 r] =>
          let v := eval vm_compute in (re_search true l0 r) in
          change (re_search true l0 r) with v
      end
  end.

Ltac eval_norm :=
  match goal with
  | |- context [norm_spaces ?l] =>
      rewrite (@alike_norm_fixed l (zeroed l) (alike_zeroed l))
        by (zero_out; vm_compute; reflexivity)
  end.

Ltac eval_strip :=
  match goal with
  | |- context [strip ?l] =>
      rewrite (@alike_strip_fixed l (zeroed l) (alike_zeroed l))
        by (zero_out; vm_compute; reflexivity)
  end.

Ltac eval_lower :=
  unfold lower_str; cbn [flat_map app];
  repeat match goal with
         | H : is_digit ?x = true |- context [lower ?x] => rewrite (@digit_lower x H)
         end.

Ltac eval_parse :=
  unfold parse_filename, str; cbn [list_ascii_of_string map app];
  eval_search PNG_RE; cbn [found negb]; cbv iota zeta;
  unfold base_of; cbn [length Nat.sub firstn]; eval_norm;
  eval_search TONE_RE; cbv iota;
  unfold wo_tone; cbn [m_start firstn]; eval_strip;
  eval_search SIZE_RE; cbv iota;
  unfold family_of, variant_of;
  repeat (first [eval_search TEMPLATE_RE | eval_search CROPPED_RE
                | eval_search SMALL_CLOSE_RE | eval_search SMALL_FAR_RE];
          cbn [found]; cbv iota);
  unfold group, slice; cbn [m_groups span_of Nat.eqb skipn firstn Nat.sub];
  eval_lower; reflexivity.

Ltac digit_cases w L :=
  destruct w as [| ? [| ? [| ? [| ? [| ? ?]]]]]; simpl in L; try lia; clear L;
  repeat match goal with
         | H : Forall _ (_ :: _) |- _ => inversion_clear H
         | H : Forall _ [] |- _ => clear H
         end.

(** X22: the three patterns the docstring of parse_filename gives are
    parsed as documented for every size: whatever the 2 to 4 digit width w
    and height h and the tone t (light or dark),
    "CKT template WxH cropped T.png" has variant crop,
    "CKT template small close WxH T.png" has variant close and
    "CKT template small far WxH T.png" has variant full, each with family
    template, size WxH and tone T. *)
Theorem documented_patterns (w h t : pystr) :
  digits w -> digits h -> t = str "light" \/ t = str "dark" ->
  parse_filename
    (str "CKT template " ++ (w ++ str "x" ++ h) ++ str " cropped " ++ t ++ str ".png")
  = Some (Descriptor
      (str "CKT template " ++ (w ++ str "x" ++ h) ++ str " cropped " ++ t ++ str ".png")
      (str "template") (w ++ str "x" ++ h) (str "crop") t) /\
  parse_filename
    (str "CKT template small close " ++ (w ++ str "x" ++ h) ++ str " " ++ t ++ str ".png")
  = Some (Descriptor
      (str "CKT template small close " ++ (w ++ str "x" ++ h) ++ str " " ++ t ++ str ".png")
      (str "template") (w ++ str "x" ++ h) (str "close") t) /\
  parse_filename
    (str "CKT template small far " ++ (w ++ str "x" ++ h) ++ str " " ++ t ++ str ".png")
  = Some (Descriptor
      (str "CKT template small far " ++ (w ++ str "x" ++ h) ++ str " " ++ t ++ str ".png")
      (str "template") (w ++ str "x" ++ h) (str "full") t).
Proof.
  intros [Dw Lw] [Dh Lh] Ht.
  digit_cases w Lw; digit_cases h Lh;
    destruct Ht as [-> | ->]; (split; [| split]); eval_parse.
Qed.

Lemma documented_patterns_witness :
  parse_filename (str "CKT template " ++ (str "1024" ++ str "x" ++ str "768")
                  ++ str " cropped " ++ str "dark" ++ str ".png")
  = Some (Descriptor
      (str "CKT template " ++ (str "1024" ++ str "x" ++ str "768")
       ++ str " cropped " ++ str "dark" ++ str ".png")
      (str "template") (str "1024" ++ str "x" ++ str "768") (str "crop") (str "dark")).
Proof.
  refine (proj1 (@documented_patterns (str "1024") (str "768") (str "dark") _ _ _)).
  - split; [repeat constructor | simpl; lia].
  - split; [repeat constructor | simpl; lia].
  - right. reflexivity.
Defined.
